(** * Branch-predictor workloads of the MyCPU SoC (4-soc/csrc)

    A shallow embedding of the six bare-metal C programs
    factorial.c, fibonacci.c, bubblesort.c, pattern.c, aliasing.c and
    complex.c, and the properties of their results and of the completion
    mailbox (addresses 0x4, 0x104, 0x100).

    Conventions of the embedding:
    - a C [int] is a [Z] in the range [-2^31, 2^31); arithmetic that the
      RV32 target performs modulo 2^32 is written with [wrap];
    - memory is a total map from byte addresses to the [int] stored in the
      word at that address; every access in the programs is an aligned
      access through an [int *];
    - a machine state is the memory together with two logs, oldest first:
      the log of all stores in the order in which the program performs
      them, and the log of the stores made through a [volatile] pointer,
      the only ones whose order the target is bound to keep;
    - a counted loop [for (i = lo; i < hi; i++)] whose body assigns neither
      [i] nor [hi] is the iteration of its body over [lo, lo+1, .., hi-1];
    - the [while] loop of [mul] and the recursion of [fib] take a fuel
      argument and return [None] when it is exhausted. *)

From Stdlib Require Import ZArith List Lia Bool Permutation Sorted.
Import ListNotations.
Local Open Scope Z_scope.

(** ** 32-bit two's-complement integers *)

Module Int32.

Definition INT_MIN : Z := - 2 ^ 31.
Definition INT_MAX : Z := 2 ^ 31 - 1.

(** The signed representative of [z] modulo 2^32. *)
Definition wrap (z : Z) : Z := (z + 2 ^ 31) mod 2 ^ 32 - 2 ^ 31.

Definition in_int (z : Z) : Prop := INT_MIN <= z <= INT_MAX.

Definition add32 (a b : Z) : Z := wrap (a + b).
Definition sub32 (a b : Z) : Z := wrap (a - b).
Definition mul32 (a b : Z) : Z := wrap (a * b).
Definition shl32 (a n : Z) : Z := wrap (Z.shiftl a n).

(** C truth value of an [int] used as a condition. *)
Definition nonzero (z : Z) : bool := negb (z =? 0).

(** The 32-bit pattern of an [int], as the harness reads the word. *)
Definition word_of_int (z : Z) : Z := z mod 2 ^ 32.

End Int32.

Import Int32.

(** ** Memory, store log and machine state *)

Definition addr := Z.
Definition mem := addr -> Z.

Definition upd (m : mem) (a : addr) (v : Z) : mem :=
  fun x => if x =? a then v else m x.

Record state := mkState {
  st_mem : mem;
  st_log : list (addr * Z);
  st_volatile : list (addr * Z)
}.

Definition load (a : addr) (s : state) : Z := st_mem s a.

(** A store of [v] to address [a] through a plain pointer to [int]. *)
Definition store (a : addr) (v : Z) (s : state) : state :=
  mkState (upd (st_mem s) a v) (st_log s ++ [(a, v)]) (st_volatile s).

(** A store of [v] to address [a] through a pointer to [volatile int]. *)
Definition store_volatile (a : addr) (v : Z) (s : state) : state :=
  mkState (upd (st_mem s) a v) (st_log s ++ [(a, v)])
          (st_volatile s ++ [(a, v)]).

(** The mailbox of the completion protocol. *)
Definition RESULT_ADDR : addr := 0x4.
Definition DONE_ADDR : addr := 0x100.
Definition STATUS_ADDR : addr := 0x104.

Definition STATUS_PASS : Z := 0x0F.
Definition STATUS_FAIL : Z := 0x01.
(** [0xCAFEF00D] assigned to an [int] object. *)
Definition DONE_MAGIC : Z := wrap 0xCAFEF00D.

(** ** Counted loops *)

Section Loops.
Context {A : Type}.

(** [cnt] iterations of [body], the index starting at [i]. *)
Fixpoint for_range (cnt : nat) (i : Z) (body : Z -> A -> A) (s : A) : A :=
  match cnt with
  | O => s
  | S c => for_range c (i + 1) body (body i s)
  end.

(** [for (i = lo; i < hi; i++) body] *)
Definition for_lt (lo hi : Z) (body : Z -> A -> A) (s : A) : A :=
  for_range (Z.to_nat (hi - lo)) lo body s.

(** [for (i = lo; i <= hi; i++) body], for [hi < INT_MAX] only: the
    index here is not wrapped, while at [hi = INT_MAX] the C index
    overflows instead of leaving the loop. *)
Definition for_le (lo hi : Z) (body : Z -> A -> A) (s : A) : A :=
  for_range (Z.to_nat (hi - lo + 1)) lo body s.
End Loops.

Definition bind {A B : Type} (x : option A) (f : A -> option B) : option B :=
  match x with
  | Some a => f a
  | None => None
  end.

(** ** factorial.c *)

Module Factorial.

(** The [while (b > 0)] loop of [mul], on the locals [a], [b], [result]. *)
Fixpoint mul_loop (fuel : nat) (a b result : Z) : option Z :=
  match fuel with
  | O => None
  | S f =>
      if b >? 0 then
        let result := if nonzero (Z.land b 1) then add32 result a else result in
        let a := shl32 a 1 in
        let b := Z.shiftr b 1 in
        mul_loop f a b result
      else Some result
  end.

Definition mul (fuel : nat) (a b : Z) : option Z := mul_loop fuel a b 0.

(** [factorial], over the multiply routine it calls. *)
Definition factorial_with (m : Z -> Z -> option Z) (n : Z) : option Z :=
  for_le 2 n (fun i result => bind result (fun r => m r i)) (Some 1).

Definition factorial (fuel : nat) (n : Z) : option Z :=
  factorial_with (mul fuel) n.

Definition main (fuel : nat) (s : state) : option state :=
  bind (factorial fuel 5) (fun r =>
  let s := store RESULT_ADDR r s in
  let s := store_volatile STATUS_ADDR STATUS_PASS s in
  let s := store_volatile DONE_ADDR DONE_MAGIC s in
  Some s).

End Factorial.

(** ** fibonacci.c *)

Module Fibonacci.

Fixpoint fib (fuel : nat) (n : Z) : option Z :=
  match fuel with
  | O => None
  | S f =>
      if n <=? 1 then Some n
      else
        bind (fib f (sub32 n 1)) (fun x =>
        bind (fib f (sub32 n 2)) (fun y =>
        Some (add32 x y)))
  end.

Definition main (fuel : nat) (s : state) : option state :=
  bind (fib fuel 20) (fun r =>
  let s := store RESULT_ADDR r s in
  let s := store_volatile STATUS_ADDR STATUS_PASS s in
  let s := store_volatile DONE_ADDR DONE_MAGIC s in
  Some s).

End Fibonacci.

(** ** bubblesort.c *)

Module Bubblesort.

Definition SIZE : Z := 50.

(** Address of [arr[j]] for [int *arr]. *)
Definition elem (arr : addr) (j : Z) : addr := arr + 4 * j.

(** The body of the inner loop: compare [arr[j]] with [arr[j + 1]] and
    exchange them through [temp]. *)
Definition swap_step (arr : addr) (j : Z) (s : state) : state :=
  if load (elem arr j) s >? load (elem arr (add32 j 1)) s then
    let temp := load (elem arr j) s in
    let s := store (elem arr j) (load (elem arr (add32 j 1)) s) s in
    let s := store (elem arr (add32 j 1)) temp s in
    s
  else s.

Definition bubblesort (arr : addr) (n : Z) (s : state) : state :=
  for_lt 0 (sub32 n 1) (fun i s =>
    for_lt 0 (sub32 (sub32 n i) 1) (fun j s => swap_step arr j s) s) s.

(** The loop of [verify], with its early [return 0]; [cnt] iterations
    remain and the index is [i]. *)
Fixpoint verify_loop (cnt : nat) (arr : addr) (i : Z) (s : state) : Z :=
  match cnt with
  | O => 1
  | S c =>
      if load (elem arr i) s >? load (elem arr (add32 i 1)) s then 0
      else verify_loop c arr (i + 1) s
  end.

Definition verify (arr : addr) (n : Z) (s : state) : Z :=
  verify_loop (Z.to_nat (sub32 n 1 - 0)) arr 0 s.

(** The [if (verify(data, SIZE)) .. else ..] of [main]: the check of the
    array as it stands and the store of the verdict to 0x104. *)
Definition report (data : addr) (s : state) : state :=
  if nonzero (verify data SIZE s)
  then store_volatile STATUS_ADDR STATUS_PASS s
  else store_volatile STATUS_ADDR STATUS_FAIL s.

(** [main], for the array [data] of bubblesort_data.h placed at address
    [data]; its initial contents are those of the initial memory. *)
Definition main (data : addr) (s : state) : state :=
  let s := bubblesort data SIZE s in
  let s := report data s in
  let s := store_volatile DONE_ADDR DONE_MAGIC s in
  s.

(** The array [arr[0..n-1]] as a list of values. *)
Definition contents (arr : addr) (n : Z) (s : state) : list Z :=
  map (fun j => load (elem arr (Z.of_nat j)) s) (seq 0 (Z.to_nat n)).

(** [arr[i] <= arr[i+1]] for every valid [i]. *)
Definition non_decreasing (arr : addr) (n : Z) (s : state) : Prop :=
  forall i, 0 <= i < n - 1 -> load (elem arr i) s <= load (elem arr (i + 1)) s.

(** [a] is the address of one of [arr[0]], .., [arr[n-1]]. *)
Definition in_array (arr : addr) (n : Z) (a : addr) : Prop :=
  exists j, 0 <= j < n /\ a = elem arr j.

(** The words at [a] and at [arr[0..n-1]] do not overlap. *)
Definition apart (arr : addr) (n : Z) (a : addr) : Prop :=
  a + 4 <= arr \/ arr + 4 * n <= a.

(** What one pass [for (j = 0; j < k; j++)] of exchanges establishes:
    the greatest of [arr[0..k]] is at [arr[k]], and only [arr[0..k]] is
    rearranged. *)
Record pass_post (arr : addr) (n k : Z) (s s' : state) : Prop := {
  pass_max : forall j, 0 <= j <= k ->
               load (elem arr j) s' <= load (elem arr k) s';
  pass_frame : forall a, (forall j, 0 <= j <= k -> a <> elem arr j) ->
                 st_mem s' a = st_mem s a;
  pass_from : forall j, 0 <= j <= k ->
                exists j', 0 <= j' <= k /\
                  load (elem arr j) s' = load (elem arr j') s;
  pass_perm : Permutation (contents arr n s') (contents arr n s);
  pass_log : exists l, st_log s' = st_log s ++ l /\
               Forall (fun e => exists j, 0 <= j <= k /\ fst e = elem arr j) l
}.

(** What [bubblesort] establishes on [arr[0..n-1]]. *)
Record sort_post (arr : addr) (n : Z) (s s' : state) : Prop := {
  sort_ordered : forall p q, 0 <= p < q -> q < n ->
                   load (elem arr p) s' <= load (elem arr q) s';
  sort_frame : forall a, ~ in_array arr n a -> st_mem s' a = st_mem s a;
  sort_perm : Permutation (contents arr n s') (contents arr n s);
  sort_log : exists l, st_log s' = st_log s ++ l /\
               Forall (fun e => in_array arr n (fst e)) l
}.

End Bubblesort.

(** ** pattern.c *)

Module Pattern.

(** The locals of [main]; [branches] is a ghost record of the outcomes of
    the branch [if (state != 0)], oldest first. *)
Record locals := mkLocals { state_ : Z; result : Z; branches : list bool }.

Definition body (i : Z) (l : locals) : locals :=
  let st := add32 (state_ l) 1 in
  let st := if st =? 3 then 0 else st in
  let taken := negb (st =? 0) in
  let res := if taken then add32 (result l) 1 else result l in
  mkLocals st res (branches l ++ [taken]).

Definition loop : locals := for_lt 0 100 body (mkLocals 0 0 []).

Definition main (s : state) : state :=
  let s := store_volatile RESULT_ADDR (result loop) s in
  let s := store_volatile STATUS_ADDR STATUS_PASS s in
  let s := store_volatile DONE_ADDR DONE_MAGIC s in
  s.

End Pattern.

(** ** aliasing.c *)

Module Aliasing.

Definition ITERATIONS : Z := 100.

Definition loop_a (n : Z) : Z :=
  for_lt 0 n (fun i sum => add32 sum i) 0.

Definition loop_b (n : Z) : Z :=
  for_lt 0 n (fun i sum => add32 sum (mul32 i 2)) 0.

Definition loop_c (n : Z) : Z :=
  for_lt 0 n (fun i sum => add32 sum (mul32 i 3)) 0.

Definition loop_d (n : Z) : Z :=
  for_lt 0 n (fun i sum => add32 sum (mul32 i 4)) 0.

Definition compute : Z :=
  let result := 0 in
  let result :=
    for_lt 0 ITERATIONS (fun _ result =>
      let result := add32 result (loop_a 10) in
      let result := add32 result (loop_b 10) in
      let result := add32 result (loop_c 10) in
      let result := add32 result (loop_d 10) in
      result) result in
  let result :=
    for_lt 0 ITERATIONS (fun _ result =>
      let result := add32 result (loop_a 8) in
      let result := add32 result (loop_c 8) in
      let result := add32 result (loop_b 8) in
      let result := add32 result (loop_d 8) in
      result) result in
  result.

Definition main (s : state) : state :=
  let s := store_volatile RESULT_ADDR compute s in
  let s := store_volatile STATUS_ADDR STATUS_PASS s in
  let s := store_volatile DONE_ADDR DONE_MAGIC s in
  s.

(** The sum of [f i] over [0 <= i < n], for the arithmetic cross-check. *)
Fixpoint sum_below (n : nat) (f : Z -> Z) : Z :=
  match n with
  | O => 0
  | S k => sum_below k f + f (Z.of_nat k)
  end.

End Aliasing.

(** ** complex.c *)

Module Complex.

Definition OUTER : Z := 50.
Definition INNER : Z := 20.

Definition correlated_loops : Z :=
  for_lt 0 OUTER (fun i sum =>
    let sum :=
      for_lt 0 INNER (fun j sum =>
        if nonzero (Z.land j 1) then add32 sum 1 else sub32 sum 1) sum in
    let sum :=
      for_lt 0 INNER (fun k sum =>
        if nonzero (Z.land k 1) then add32 sum 2 else sub32 sum 2) sum in
    sum) 0.

Definition sequential_branches (n : Z) : Z :=
  for_lt 0 n (fun i sum =>
    let sum := if nonzero (Z.land i 1) then add32 sum 1 else sum in
    let sum := if nonzero (Z.land i 2) then add32 sum 2 else sum in
    let sum := if nonzero (Z.land i 4) then add32 sum 4 else sum in
    let sum := if nonzero (Z.land i 8) then add32 sum 8 else sum in
    let sum := if Z.land i 3 =? 0 then add32 sum 10 else sum in
    let sum := if Z.land i 3 =? 1 then add32 sum 20 else sum in
    let sum := if Z.land i 3 =? 2 then add32 sum 30 else sum in
    let sum := if Z.land i 3 =? 3 then add32 sum 40 else sum in
    sum) 0.

Definition func_a (n : Z) : Z :=
  for_lt 0 n (fun i sum =>
    if i <? Z.quot n 2 then add32 sum i else sub32 sum i) 0.

Definition func_b (n : Z) : Z :=
  for_lt 0 n (fun i sum =>
    if i >=? Z.quot n 2 then add32 sum i else sub32 sum i) 0.

Definition func_c (n : Z) : Z :=
  for_lt 0 n (fun i sum =>
    if Z.land i 3 <? 2 then add32 sum i else sub32 sum i) 0.

Definition compute : Z :=
  let result := 0 in
  let result := add32 result correlated_loops in
  let result :=
    for_lt 0 10 (fun _ result => add32 result (sequential_branches 32)) result in
  let result :=
    for_lt 0 30 (fun _ result =>
      let result := add32 result (func_a 8) in
      let result := add32 result (func_b 8) in
      let result := add32 result (func_c 8) in
      result) result in
  result.

Definition main (s : state) : state :=
  let s := store_volatile RESULT_ADDR compute s in
  let s := store_volatile STATUS_ADDR STATUS_PASS s in
  let s := store_volatile DONE_ADDR DONE_MAGIC s in
  s.

End Complex.

(** ** The six workloads *)

Inductive workload : Type :=
  | W_factorial | W_fibonacci | W_bubblesort | W_pattern | W_aliasing | W_complex.

(** The machine starts a program with memory [m] and no store performed. *)
Definition init (m : mem) : state := mkState m [] [].

(** One run of a workload's [main]; [fuel] bounds the loop of [mul] and the
    recursion of [fib], [data] is where the sorting workload's array lies. *)
Definition run (w : workload) (fuel : nat) (data : addr) (m : mem) : option state :=
  match w with
  | W_factorial => Factorial.main fuel (init m)
  | W_fibonacci => Fibonacci.main fuel (init m)
  | W_bubblesort => Some (Bubblesort.main data (init m))
  | W_pattern => Some (Pattern.main (init m))
  | W_aliasing => Some (Aliasing.main (init m))
  | W_complex => Some (Complex.main (init m))
  end.

(** Position of the first store to [a] in a log. *)
Fixpoint first_store (a : addr) (l : list (addr * Z)) : option nat :=
  match l with
  | [] => None
  | (x, _) :: l' =>
      if x =? a then Some O else option_map S (first_store a l')
  end.

(** Some store to [a] precedes every store to [b], and [b] is stored to. *)
Definition stored_before (a b : addr) (l : list (addr * Z)) : Prop :=
  exists i j, first_store a l = Some i /\ first_store b l = Some j /\ (i < j)%nat.

Definition recognized_status (v : Z) : Prop := v = STATUS_PASS \/ v = STATUS_FAIL.

(** The completion protocol as the specification words it for every
    workload: magic word and status in place, both stored after the result. *)
Definition completion_protocol (s : state) : Prop :=
  word_of_int (load DONE_ADDR s) = 0xCAFEF00D /\
  recognized_status (load STATUS_ADDR s) /\
  stored_before RESULT_ADDR STATUS_ADDR (st_log s) /\
  stored_before RESULT_ADDR DONE_ADDR (st_log s).

(** No store of the log goes to [a]. *)
Definition never_stored (a : addr) (l : list (addr * Z)) : Prop :=
  forall v, ~ In (a, v) l.

(** ** Reference functions for the arithmetic workloads *)

Module Reference.

(** [n!] *)
Fixpoint factorial_spec (n : nat) : Z :=
  match n with
  | O => 1
  | S k => Z.of_nat (S k) * factorial_spec k
  end.

(** The Fibonacci sequence 0, 1, 1, 2, 3, 5, .. *)
Fixpoint fib_spec (n : nat) : Z :=
  match n with
  | O => 0
  | S k =>
      match k with
      | O => 1
      | S j => fib_spec k + fib_spec j
      end
  end.

(** The same sequence by pairs [(F n, F (n+1))], linear in [n]. *)
Fixpoint fib_pair (n : nat) : Z * Z :=
  match n with
  | O => (0, 1)
  | S k => let '(a, b) := fib_pair k in (b, a + b)
  end.

(** What one iteration [i] of [sequential_branches] adds, by the low four
    bits of [i]. *)
Definition seq_term (i : Z) : Z := i mod 16 + 10 * (i mod 4 + 1).

(** What one iteration [i] of [func_a(n)] adds. *)
Definition half_term (n i : Z) : Z := if i <? n / 2 then i else - i.


End Reference.

(** ** Facts about 32-bit arithmetic *)

Lemma wrap_id z : in_int z -> wrap z = z.
Proof.
  unfold in_int, INT_MIN, INT_MAX, wrap. intros H.
  rewrite Z.mod_small; lia.
Qed.

Lemma wrap_in_int z : in_int (wrap z).
Proof.
  unfold in_int, INT_MIN, INT_MAX, wrap.
  pose proof (Z.mod_pos_bound (z + 2 ^ 31) (2 ^ 32) ltac:(lia)). lia.
Qed.

Lemma wrap_mod z : wrap z mod 2 ^ 32 = z mod 2 ^ 32.
Proof.
  unfold wrap.
  rewrite Zminus_mod_idemp_l.
  f_equal. lia.
Qed.

Lemma wrap_congr x y : x mod 2 ^ 32 = y mod 2 ^ 32 -> wrap x = wrap y.
Proof.
  intros H. unfold wrap.
  rewrite <- (Zplus_mod_idemp_l x), <- (Zplus_mod_idemp_l y), H. reflexivity.
Qed.

Lemma add32_id a b : in_int (a + b) -> add32 a b = a + b.
Proof. apply wrap_id. Qed.

Lemma sub32_id a b : in_int (a - b) -> sub32 a b = a - b.
Proof. apply wrap_id. Qed.

(** ** The invariant rule for counted loops *)

Lemma for_range_inv {A : Type} (Inv : Z -> A -> Prop) (body : Z -> A -> A) :
  forall cnt i s,
    Inv i s ->
    (forall j t, i <= j < i + Z.of_nat cnt -> Inv j t -> Inv (j + 1) (body j t)) ->
    Inv (i + Z.of_nat cnt) (for_range cnt i body s).
Proof.
  induction cnt as [|c IH]; intros i s H0 Hstep.
  - simpl. now rewrite Z.add_0_r.
  - cbn [for_range].
    replace (i + Z.of_nat (S c)) with (i + 1 + Z.of_nat c) by lia.
    apply IH.
    + apply Hstep; [lia | exact H0].
    + intros j t Hj. apply Hstep. lia.
Qed.

Lemma for_lt_inv {A : Type} (Inv : Z -> A -> Prop) (body : Z -> A -> A) lo hi s :
  lo <= hi ->
  Inv lo s ->
  (forall j t, lo <= j < hi -> Inv j t -> Inv (j + 1) (body j t)) ->
  Inv hi (for_lt lo hi body s).
Proof.
  intros Hle H0 Hstep. unfold for_lt.
  replace hi with (lo + Z.of_nat (Z.to_nat (hi - lo))) at 1 by lia.
  apply for_range_inv; [exact H0|].
  intros j t Hj. apply Hstep. lia.
Qed.

Lemma for_lt_empty {A : Type} (body : Z -> A -> A) lo hi s :
  hi <= lo -> for_lt lo hi body s = s.
Proof.
  intros H. unfold for_lt.
  replace (Z.to_nat (hi - lo)) with O by lia. reflexivity.
Qed.

(** ** Memory after stores *)

Lemma load_store a b v s :
  load a (store b v s) = if a =? b then v else load a s.
Proof. reflexivity. Qed.

Lemma load_store_volatile a b v s :
  load a (store_volatile b v s) = if a =? b then v else load a s.
Proof. reflexivity. Qed.

(** ** The exchange step and one pass of bubblesort *)

Section SortArray.
Import Bubblesort.
Variable arr : addr.

Local Abbreviation rd s j := (load (elem arr j) s).

Lemma elem_inj j k : elem arr j = elem arr k -> j = k.
Proof. unfold elem. lia. Qed.

Lemma swap_step_mem j s a :
  in_int (j + 1) ->
  st_mem (swap_step arr j s) a =
    if a =? elem arr (j + 1) then Z.max (rd s j) (rd s (j + 1))
    else if a =? elem arr j then Z.min (rd s j) (rd s (j + 1))
    else st_mem s a.
Proof.
  intros Hj. unfold swap_step. rewrite (add32_id j 1 Hj).
  destruct (Z.gtb_spec (rd s j) (rd s (j + 1))) as [Hgt|Hle].
  - simpl. unfold upd, load in *.
    destruct (a =? elem arr (j + 1)) eqn:E1; [lia|].
    destruct (a =? elem arr j) eqn:E2; [lia | reflexivity].
  - destruct (a =? elem arr (j + 1)) eqn:E1.
    + apply Z.eqb_eq in E1. subst a. unfold load in *. lia.
    + destruct (a =? elem arr j) eqn:E2; [|reflexivity].
      apply Z.eqb_eq in E2. subst a. unfold load in *. lia.
Qed.

Lemma swap_step_hi j s :
  in_int (j + 1) ->
  rd (swap_step arr j s) (j + 1) = Z.max (rd s j) (rd s (j + 1)).
Proof.
  intros Hj. unfold load at 1. rewrite swap_step_mem by exact Hj.
  now rewrite Z.eqb_refl.
Qed.

Lemma swap_step_lo j s :
  in_int (j + 1) ->
  rd (swap_step arr j s) j = Z.min (rd s j) (rd s (j + 1)).
Proof.
  intros Hj. unfold load at 1. rewrite swap_step_mem by exact Hj.
  replace (elem arr j =? elem arr (j + 1)) with false
    by (symmetry; apply Z.eqb_neq; unfold elem; lia).
  now rewrite Z.eqb_refl.
Qed.

Lemma swap_step_other j s a :
  in_int (j + 1) -> a <> elem arr j -> a <> elem arr (j + 1) ->
  st_mem (swap_step arr j s) a = st_mem s a.
Proof.
  intros Hj H1 H2. rewrite swap_step_mem by exact Hj.
  apply Z.eqb_neq in H1, H2. now rewrite H1, H2.
Qed.

Lemma swap_step_log j s :
  exists l,
    st_log (swap_step arr j s) = st_log s ++ l /\
    Forall (fun e => fst e = elem arr j \/ fst e = elem arr (add32 j 1)) l.
Proof.
  unfold swap_step.
  destruct (rd s j >? rd s (add32 j 1)).
  - eexists. split.
    + cbn [st_log store]. rewrite <- app_assoc. reflexivity.
    + simpl. constructor; [now left|]. constructor; [now right | constructor].
  - exists []. split; [now rewrite app_nil_r | constructor].
Qed.

(** Exchanging two neighbours of a sequence permutes it. *)
Lemma map_seq_swap (f g : nat -> Z) (J N : nat) :
  (S J < N)%nat ->
  g J = f (S J) -> g (S J) = f J ->
  (forall k, k <> J -> k <> S J -> g k = f k) ->
  Permutation (map g (seq 0 N)) (map f (seq 0 N)).
Proof.
  intros HJ H1 H2 Hrest.
  replace N with (J + (2 + (N - J - 2)))%nat by lia.
  rewrite seq_app, !map_app. cbn [seq map Nat.add].
  apply Permutation_app.
  - erewrite map_ext_in; [reflexivity|].
    intros k Hk. apply in_seq in Hk. apply Hrest; lia.
  - rewrite H1, H2.
    erewrite (map_ext_in g f); [apply perm_swap|].
    intros k Hk. apply in_seq in Hk. apply Hrest; lia.
Qed.

Lemma swap_step_perm n j s :
  0 <= j -> j + 1 < n -> in_int (j + 1) ->
  Permutation (contents arr n (swap_step arr j s)) (contents arr n s).
Proof.
  intros H0 Hn Hj. unfold contents.
  destruct (Z_le_gt_dec (rd s j) (rd s (j + 1))) as [Hle|Hgt].
  - erewrite map_ext; [reflexivity|].
    intros k. cbv beta. unfold load at 1.
    rewrite swap_step_mem by exact Hj.
    destruct (_ =? elem arr (j + 1)) eqn:E1.
    + apply Z.eqb_eq in E1. rewrite E1. lia.
    + destruct (_ =? elem arr j) eqn:E2; [|reflexivity].
      apply Z.eqb_eq in E2. rewrite E2. lia.
  - apply (map_seq_swap _ _ (Z.to_nat j)).
    + lia.
    + replace (Z.of_nat (Z.to_nat j)) with j by lia.
      replace (Z.of_nat (S (Z.to_nat j))) with (j + 1) by lia.
      rewrite swap_step_lo by exact Hj. lia.
    + replace (Z.of_nat (Z.to_nat j)) with j by lia.
      replace (Z.of_nat (S (Z.to_nat j))) with (j + 1) by lia.
      rewrite swap_step_hi by exact Hj. lia.
    + intros k Hk1 Hk2. unfold load.
      apply swap_step_other; [exact Hj | |]; unfold elem; lia.
Qed.

Lemma pass_correct n k s :
  0 <= k < n -> n <= INT_MAX ->
  pass_post arr n k s (for_lt 0 k (fun j s => swap_step arr j s) s).
Proof.
  intros Hk Hn.
  pose (Inv := fun (i : Z) (t : state) =>
    0 <= i <= k /\
    (forall j, 0 <= j <= i -> rd t j <= rd t i) /\
    (forall a, (forall j, 0 <= j <= k -> a <> elem arr j) -> st_mem t a = st_mem s a) /\
    (forall j, 0 <= j <= k -> exists j', 0 <= j' <= k /\ rd t j = rd s j') /\
    Permutation (contents arr n t) (contents arr n s) /\
    (exists l, st_log t = st_log s ++ l /\
               Forall (fun e => exists j, 0 <= j <= k /\ fst e = elem arr j) l)).
  assert (HI : Inv k (for_lt 0 k (fun j s => swap_step arr j s) s)).
  { apply for_lt_inv; [lia | |].
    - unfold Inv. repeat split; try lia.
      + intros j Hj. replace j with 0 by lia. lia.
      + intros j Hj. exists j. split; [lia | reflexivity].
      + reflexivity.
      + exists []. split; [now rewrite app_nil_r | constructor].
    - intros j t Hj (Hr & Hmax & Hfr & Hfrom & Hperm & l & Hlog & Hl).
      assert (Hin : in_int (j + 1)) by (unfold in_int, INT_MIN, INT_MAX in *; lia).
      unfold Inv. repeat split; try lia.
      + intros p Hp. rewrite swap_step_hi by exact Hin.
        destruct (Z.eq_dec p (j + 1)) as [->|Hne1].
        { rewrite swap_step_hi by exact Hin. lia. }
        destruct (Z.eq_dec p j) as [->|Hne2].
        { rewrite swap_step_lo by exact Hin. lia. }
        unfold load at 1. rewrite swap_step_other; try exact Hin;
          try (unfold elem; lia).
        specialize (Hmax p ltac:(lia)). unfold load in *. lia.
      + intros a Ha. rewrite swap_step_other; try exact Hin.
        * apply Hfr, Ha.
        * apply Ha. lia.
        * apply Ha. lia.
      + intros p Hp.
        destruct (Z.eq_dec p (j + 1)) as [->|Hne1].
        { rewrite swap_step_hi by exact Hin.
          destruct (Z.max_spec (rd t j) (rd t (j + 1))) as [[_ ->]|[_ ->]];
            apply Hfrom; lia. }
        destruct (Z.eq_dec p j) as [->|Hne2].
        { rewrite swap_step_lo by exact Hin.
          destruct (Z.min_spec (rd t j) (rd t (j + 1))) as [[_ ->]|[_ ->]];
            apply Hfrom; lia. }
        unfold load at 1. rewrite swap_step_other; try exact Hin;
          try (unfold elem; lia).
        apply Hfrom, Hp.
      + etransitivity; [|exact Hperm].
        apply swap_step_perm; [lia | lia | exact Hin].
      + destruct (swap_step_log j t) as (l' & Hlog' & Hl').
        exists (l ++ l'). split.
        * rewrite Hlog', Hlog, app_assoc. reflexivity.
        * apply Forall_app. split; [exact Hl|].
          rewrite (add32_id j 1 Hin) in Hl'.
          eapply Forall_impl; [|exact Hl'].
          intros e [He|He]; [exists j | exists (j + 1)]; split; auto; lia. }
  destruct HI as (_ & H1 & H2 & H3 & H4 & H5).
  constructor; assumption.
Qed.

Lemma bubblesort_correct n s :
  0 <= n <= INT_MAX -> sort_post arr n s (bubblesort arr n s).
Proof.
  intros Hn. unfold bubblesort.
  rewrite (sub32_id n 1) by (unfold in_int, INT_MIN, INT_MAX in *; lia).
  destruct (Z.eq_dec n 0) as [->|Hn0].
  { rewrite for_lt_empty by lia. constructor.
    - intros; lia.
    - reflexivity.
    - reflexivity.
    - exists []. split; [now rewrite app_nil_r | constructor]. }
  pose (Inv := fun (i : Z) (t : state) =>
    (forall p q, 0 <= p < q -> q < n -> n - i <= q -> rd t p <= rd t q) /\
    (forall a, ~ in_array arr n a -> st_mem t a = st_mem s a) /\
    Permutation (contents arr n t) (contents arr n s) /\
    (exists l, st_log t = st_log s ++ l /\
               Forall (fun e => in_array arr n (fst e)) l)).
  match goal with |- sort_post _ _ _ ?t => assert (HI : Inv (n - 1) t) end.
  { apply for_lt_inv; [lia | |].
    - unfold Inv. repeat split.
      + intros; lia.
      + reflexivity.
      + exists []. split; [now rewrite app_nil_r | constructor].
    - intros i t Hi (Hord & Hfr & Hperm & l & Hlog & Hl).
      rewrite (sub32_id n i) by (unfold in_int, INT_MIN, INT_MAX in *; lia).
      rewrite (sub32_id (n - i) 1) by (unfold in_int, INT_MIN, INT_MAX in *; lia).
      destruct (pass_correct n (n - i - 1) t ltac:(lia) ltac:(lia))
        as [Pmax Pfr Pfrom Pperm (l' & Plog & Pl)].
      assert (Hkeep : forall q, n - i <= q ->
        load (elem arr q) (for_lt 0 (n - i - 1) (fun j s => swap_step arr j s) t)
        = rd t q).
      { intros q Hq. unfold load. apply Pfr.
        intros j Hj Habs. apply elem_inj in Habs. lia. }
      unfold Inv. repeat split.
      + intros p q Hp Hqn Hq.
        destruct (Z.eq_dec q (n - i - 1)) as [->|Hqk].
        { apply Pmax. lia. }
        rewrite (Hkeep q) by lia.
        destruct (Z_lt_le_dec p (n - i)) as [Hlo|Hhi].
        * destruct (Pfrom p ltac:(lia)) as (p' & Hp' & ->).
          apply Hord; lia.
        * rewrite (Hkeep p) by lia. apply Hord; lia.
      + intros a Ha. rewrite Pfr; [apply Hfr, Ha|].
        intros j Hj ->. apply Ha. exists j. split; [lia | reflexivity].
      + etransitivity; [exact Pperm | exact Hperm].
      + exists (l ++ l'). split.
        * rewrite Plog, Hlog, app_assoc. reflexivity.
        * apply Forall_app. split; [exact Hl|].
          eapply Forall_impl; [|exact Pl].
          intros e (j & Hj & He). exists j. split; [lia | exact He]. }
  destruct HI as (H1 & H2 & H3 & H4).
  constructor; try assumption.
  intros p q Hp Hq. apply H1; lia.
Qed.

(** [verify] returns 1 exactly on a non-decreasing array, and 0 otherwise. *)
Lemma verify_loop_spec s : forall cnt i,
  0 <= i -> in_int (i + Z.of_nat cnt) ->
  (verify_loop cnt arr i s = 1 /\
     forall k, i <= k < i + Z.of_nat cnt -> rd s k <= rd s (k + 1)) \/
  (verify_loop cnt arr i s = 0 /\
     exists k, i <= k < i + Z.of_nat cnt /\ rd s (k + 1) < rd s k).
Proof.
  induction cnt as [|c IH]; intros i Hi Hin.
  - left. split; [reflexivity | intros; lia].
  - cbn [verify_loop].
    rewrite (add32_id i 1) by (unfold in_int, INT_MIN, INT_MAX in *; lia).
    destruct (Z.gtb_spec (rd s i) (rd s (i + 1))) as [Hgt|Hle].
    + right. split; [reflexivity|]. exists i. split; [lia | exact Hgt].
    + destruct (IH (i + 1) ltac:(lia)) as [[E H]|[E (k & Hk & H)]].
      * unfold in_int in *. lia.
      * left. split; [exact E|].
        intros k Hk. destruct (Z.eq_dec k i) as [->|]; [exact Hle | apply H; lia].
      * right. split; [exact E|]. exists k. split; [lia | exact H].
Qed.

Lemma verify_spec n s :
  0 <= n <= INT_MAX ->
  (verify arr n s = 1 /\ non_decreasing arr n s) \/
  (verify arr n s = 0 /\ ~ non_decreasing arr n s).
Proof.
  intros Hn. unfold verify, non_decreasing.
  rewrite (sub32_id n 1) by (unfold in_int, INT_MIN, INT_MAX in *; lia).
  destruct (verify_loop_spec s (Z.to_nat (n - 1 - 0)) 0 ltac:(lia))
    as [[E H]|[E (k & Hk & H)]].
  - unfold in_int, INT_MIN, INT_MAX in *. lia.
  - left. split; [exact E|]. intros i Hi. apply H. lia.
  - right. split; [exact E|]. intros Hnd.
    specialize (Hnd k ltac:(lia)). lia.
Qed.

End SortArray.

(** ** The software multiply *)

Lemma wrap_add_l x y : wrap (wrap x + y) = wrap (x + y).
Proof.
  apply wrap_congr.
  rewrite <- Zplus_mod_idemp_l, wrap_mod, Zplus_mod_idemp_l. reflexivity.
Qed.

Lemma wrap_mul_l x y : wrap (wrap x * y) = wrap (x * y).
Proof.
  apply wrap_congr.
  rewrite <- Zmult_mod_idemp_l, wrap_mod, Zmult_mod_idemp_l. reflexivity.
Qed.

Lemma wrap_add_r x y : wrap (x + wrap y) = wrap (x + y).
Proof. rewrite Z.add_comm, wrap_add_l. f_equal. lia. Qed.

Lemma land_1 b : Z.land b 1 = b mod 2.
Proof. exact (Z.land_ones b 1 ltac:(lia)). Qed.

Lemma shiftr_1 b : Z.shiftr b 1 = b / 2.
Proof. exact (Z.shiftr_div_pow2 b 1 ltac:(lia)). Qed.

Lemma shiftl_1 a : Z.shiftl a 1 = a * 2.
Proof. exact (Z.shiftl_mul_pow2 a 1 ltac:(lia)). Qed.

Lemma mul_loop_S f a b result :
  Factorial.mul_loop (S f) a b result =
    if b >? 0 then
      Factorial.mul_loop f (shl32 a 1) (Z.shiftr b 1)
        (if nonzero (Z.land b 1) then add32 result a else result)
    else Some result.
Proof. reflexivity. Qed.

(** The loop invariant of [mul]: [result + a * b] is unchanged modulo 2^32;
    [S f] tests of the condition suffice when [b < 2^f]. *)
Lemma mul_loop_spec : forall f a b result,
  0 <= b < 2 ^ Z.of_nat f -> in_int result ->
  Factorial.mul_loop (S f) a b result = Some (wrap (result + a * b)).
Proof.
  induction f as [|f IH]; intros a b result Hb Hr.
  - replace b with 0 by (simpl in Hb; lia).
    simpl. rewrite Z.mul_0_r, Z.add_0_r, wrap_id by exact Hr. reflexivity.
  - rewrite mul_loop_S.
    destruct (Z.gtb_spec b 0) as [Hpos|Hz].
    + assert (Hb' : 0 <= Z.shiftr b 1 < 2 ^ Z.of_nat f).
      { rewrite shiftr_1.
        replace (2 ^ Z.of_nat (S f)) with (2 * 2 ^ Z.of_nat f) in Hb
          by (rewrite Nat2Z.inj_succ, Z.pow_succ_r; lia).
        split; [apply Z.div_pos; lia | apply Z.div_lt_upper_bound; lia]. }
      rewrite IH; [apply f_equal | exact Hb' |].
      * unfold shl32. rewrite shiftl_1, shiftr_1.
        rewrite <- wrap_add_r, wrap_mul_l, wrap_add_r.
        pose proof (Z.div_mod b 2 ltac:(lia)) as Hdiv.
        pose proof (Z.mod_pos_bound b 2 ltac:(lia)) as Hm.
        unfold nonzero. rewrite land_1.
        destruct (Z.eqb_spec (b mod 2) 0) as [E|E]; cbn [negb].
        -- assert (Hb2 : b = 2 * (b / 2)) by lia.
           remember (b / 2) as q. rewrite Hb2. f_equal. ring.
        -- assert (Hb2 : b = 2 * (b / 2) + 1) by lia.
           remember (b / 2) as q. rewrite Hb2.
           unfold add32. rewrite wrap_add_l. f_equal. ring.
      * destruct (nonzero (Z.land b 1)); [apply wrap_in_int | exact Hr].
    + replace b with 0 by lia.
      rewrite Z.mul_0_r, Z.add_0_r, wrap_id by exact Hr. reflexivity.
Qed.

Lemma mul_nonneg fuel a b :
  (32 <= fuel)%nat -> 0 <= b <= INT_MAX ->
  Factorial.mul fuel a b = Some (wrap (a * b)).
Proof.
  intros Hf Hb. destruct fuel as [|f]; [lia|].
  unfold Factorial.mul. rewrite mul_loop_spec.
  - reflexivity.
  - split; [lia|].
    apply Z.le_lt_trans with INT_MAX; [lia|].
    apply Z.lt_le_trans with (2 ^ 31); [unfold INT_MAX; lia|].
    apply Z.pow_le_mono_r; lia.
  - unfold in_int, INT_MIN, INT_MAX. lia.
Qed.

Lemma mul_loop_nonpos f a b result :
  b <= 0 -> Factorial.mul_loop (S f) a b result = Some result.
Proof.
  intros Hb. rewrite mul_loop_S.
  destruct (Z.gtb_spec b 0); [lia | reflexivity].
Qed.

(** [factorial] passes only its loop index, at least 2, as multiplier. *)
Lemma factorial_loop_ext (m1 m2 : Z -> Z -> option Z) :
  (forall x i, 2 <= i -> m1 x i = m2 x i) ->
  forall cnt i acc, 2 <= i ->
    for_range cnt i (fun i result => bind result (fun r => m1 r i)) acc =
    for_range cnt i (fun i result => bind result (fun r => m2 r i)) acc.
Proof.
  intros Hext. induction cnt as [|c IH]; intros i acc Hi; [reflexivity|].
  cbn [for_range]. rewrite IH by lia. f_equal.
  destruct acc as [r|]; [apply Hext, Hi | reflexivity].
Qed.

Lemma factorial_with_ext (m1 m2 : Z -> Z -> option Z) n :
  (forall x i, 2 <= i -> m1 x i = m2 x i) ->
  Factorial.factorial_with m1 n = Factorial.factorial_with m2 n.
Proof.
  intros Hext. unfold Factorial.factorial_with, for_le.
  apply factorial_loop_ext; [exact Hext | lia].
Qed.

Lemma factorial_5 fuel : (32 <= fuel)%nat -> Factorial.factorial fuel 5 = Some 120.
Proof.
  intros Hf. unfold Factorial.factorial, Factorial.factorial_with, for_le.
  change (Z.to_nat (5 - 2 + 1)) with 4%nat.
  cbn [for_range bind].
  repeat (rewrite (mul_nonneg fuel _ _ Hf) by (unfold INT_MAX; lia); cbn [bind]).
  vm_compute. reflexivity.
Qed.

(** ** The recursion of [fib] *)

Lemma fib_fuel_mono : forall f n r,
  Fibonacci.fib f n = Some r -> forall f', (f <= f')%nat -> Fibonacci.fib f' n = Some r.
Proof.
  induction f as [|f IH]; intros n r H f' Hle; [discriminate|].
  destruct f' as [|f']; [lia|].
  cbn [Fibonacci.fib] in *.
  destruct (n <=? 1); [exact H|].
  destruct (Fibonacci.fib f (sub32 n 1)) as [x|] eqn:E1; [|discriminate].
  destruct (Fibonacci.fib f (sub32 n 2)) as [y|] eqn:E2; [|discriminate].
  rewrite (IH _ _ E1 f'), (IH _ _ E2 f') by lia. exact H.
Qed.

Lemma fib_20 fuel : (20 <= fuel)%nat -> Fibonacci.fib fuel 20 = Some 6765.
Proof.
  apply fib_fuel_mono. vm_compute. reflexivity.
Qed.

(** ** The mailbox stores of the six programs *)

(** The three stores that end every [main] but the sorting one. *)
Lemma done_word s :
  word_of_int (load DONE_ADDR (store_volatile DONE_ADDR DONE_MAGIC s))
    = 0xCAFEF00D.
Proof. rewrite load_store_volatile, Z.eqb_refl. vm_compute. reflexivity. Qed.

Lemma status_word v s :
  load STATUS_ADDR
    (store_volatile DONE_ADDR DONE_MAGIC (store_volatile STATUS_ADDR v s)) = v.
Proof.
  rewrite !load_store_volatile, Z.eqb_refl.
  replace (STATUS_ADDR =? DONE_ADDR) with false by reflexivity. reflexivity.
Qed.

Lemma result_word r v s :
  load RESULT_ADDR
    (store_volatile DONE_ADDR DONE_MAGIC
       (store_volatile STATUS_ADDR v (store_volatile RESULT_ADDR r s))) = r.
Proof. rewrite !load_store_volatile. reflexivity. Qed.

Lemma result_word_plain r v s :
  load RESULT_ADDR
    (store_volatile DONE_ADDR DONE_MAGIC
       (store_volatile STATUS_ADDR v (store RESULT_ADDR r s))) = r.
Proof. rewrite !load_store_volatile, load_store. reflexivity. Qed.

(** The stores that end every [main] but the sorting one: the result, by a
    plain or a volatile store, then status and magic word by volatile
    stores. *)
Lemma run_plain w fuel data m :
  w <> W_bubblesort -> (32 <= fuel)%nat ->
  exists r s0,
    run w fuel data m =
      Some (store_volatile DONE_ADDR DONE_MAGIC
             (store_volatile STATUS_ADDR STATUS_PASS s0)) /\
    ((w = W_factorial \/ w = W_fibonacci) /\
       s0 = store RESULT_ADDR r (init m) \/
     (w = W_pattern \/ w = W_aliasing \/ w = W_complex) /\
       s0 = store_volatile RESULT_ADDR r (init m)).
Proof.
  intros Hw Hf. destruct w; try congruence; cbn [run].
  - exists 120. eexists. unfold Factorial.main.
    rewrite (factorial_5 fuel Hf). cbn [bind]. split; [reflexivity|]. left. auto.
  - exists 6765. eexists. unfold Fibonacci.main.
    rewrite (fib_20 fuel) by lia. cbn [bind]. split; [reflexivity|]. left. auto.
  - exists (Pattern.result Pattern.loop). eexists.
    split; [reflexivity|]. right. auto.
  - exists Aliasing.compute. eexists. split; [reflexivity|]. right. auto.
  - exists Complex.compute. eexists. split; [reflexivity|]. right. auto.
Qed.

Lemma first_store_In a l i :
  first_store a l = Some i -> exists v, In (a, v) l.
Proof.
  revert i. induction l as [|[x v] l IH]; intros i H; [discriminate|].
  cbn [first_store] in H.
  destruct (Z.eqb_spec x a) as [->|Hne].
  - exists v. now left.
  - destruct (first_store a l) as [k|]; [|discriminate].
    destruct (IH k eq_refl) as (v' & Hin). exists v'. now right.
Qed.

Lemma in_array_not_apart arr n a :
  Bubblesort.in_array arr n a -> Bubblesort.apart arr n a -> False.
Proof.
  intros (j & Hj & ->) [H|H]; unfold Bubblesort.elem in H; lia.
Qed.

Lemma never_stored_in_array arr n a l :
  Bubblesort.apart arr n a ->
  Forall (fun e => Bubblesort.in_array arr n (fst e)) l ->
  never_stored a l.
Proof.
  intros Hap Hl v Hin.
  rewrite Forall_forall in Hl. specialize (Hl _ Hin).
  exact (in_array_not_apart _ _ _ Hl Hap).
Qed.

Lemma SIZE_range : 0 <= Bubblesort.SIZE <= INT_MAX.
Proof. unfold Bubblesort.SIZE, INT_MAX. lia. Qed.

Lemma ordered_non_decreasing arr n s :
  (forall p q, 0 <= p < q -> q < n ->
     load (Bubblesort.elem arr p) s <= load (Bubblesort.elem arr q) s) ->
  Bubblesort.non_decreasing arr n s.
Proof. intros H i Hi. apply H; lia. Qed.

(** The sorting [main] always takes the success branch. *)
Lemma sorting_main_passes data s :
  Bubblesort.main data s =
    store_volatile DONE_ADDR DONE_MAGIC
      (store_volatile STATUS_ADDR STATUS_PASS
         (Bubblesort.bubblesort data Bubblesort.SIZE s)).
Proof.
  unfold Bubblesort.main, Bubblesort.report.
  destruct (verify_spec data Bubblesort.SIZE
              (Bubblesort.bubblesort data Bubblesort.SIZE s) SIZE_range)
    as [[E _]|[_ Hno]].
  - rewrite E. reflexivity.
  - exfalso. apply Hno, ordered_non_decreasing.
    apply (Bubblesort.sort_ordered _ _ _ _ (bubblesort_correct data _ s SIZE_range)).
Qed.

Lemma sorting_main_log data m :
  exists l,
    st_log (Bubblesort.main data (init m)) =
      l ++ [(STATUS_ADDR, STATUS_PASS); (DONE_ADDR, DONE_MAGIC)] /\
    st_log (Bubblesort.bubblesort data Bubblesort.SIZE (init m)) = l /\
    Forall (fun e => Bubblesort.in_array data Bubblesort.SIZE (fst e)) l.
Proof.
  destruct (Bubblesort.sort_log _ _ _ _ (bubblesort_correct data _ (init m) SIZE_range))
    as (l & Hlog & Hl).
  exists l. rewrite sorting_main_passes. cbn [st_log store_volatile].
  rewrite Hlog. cbn [init st_log app]. rewrite <- app_assoc.
  split; [reflexivity|]. split; [reflexivity | exact Hl].
Qed.

Lemma never_stored_app a l1 l2 :
  never_stored a l1 -> never_stored a l2 -> never_stored a (l1 ++ l2).
Proof.
  intros H1 H2 v Hin. apply in_app_or in Hin.
  destruct Hin as [Hin|Hin]; [exact (H1 v Hin) | exact (H2 v Hin)].
Qed.

Lemma sorting_stores_no_result data m :
  Bubblesort.apart data Bubblesort.SIZE RESULT_ADDR ->
  never_stored RESULT_ADDR (st_log (Bubblesort.main data (init m))).
Proof.
  intros Hap. destruct (sorting_main_log data m) as (l & -> & _ & Hl).
  apply never_stored_app.
  - exact (never_stored_in_array _ _ _ _ Hap Hl).
  - intros v [H|[H|[]]]; inversion H.
Qed.

(** ** The summation loops of aliasing.c *)

Lemma sum_below_ext n f g :
  (forall i, 0 <= i < Z.of_nat n -> f i = g i) ->
  Aliasing.sum_below n f = Aliasing.sum_below n g.
Proof.
  induction n as [|n IH]; intros H; [reflexivity|].
  cbn [Aliasing.sum_below]. rewrite IH, H by (intros; try apply H; lia).
  reflexivity.
Qed.

Lemma sum_below_plus n f g :
  Aliasing.sum_below n f + Aliasing.sum_below n g
    = Aliasing.sum_below n (fun i => f i + g i).
Proof.
  induction n as [|n IH]; [reflexivity|].
  cbn [Aliasing.sum_below]. rewrite <- IH. ring.
Qed.

(** A loop [for (i = 0; i < n; i++) sum += g(i)] with small non-negative
    terms never wraps and computes the sum of the terms. *)
Lemma sum_loop (g : Z -> Z) n :
  0 <= n <= 16384 ->
  (forall i, 0 <= i < n -> 0 <= g i <= 65536) ->
  for_lt 0 n (fun i sum => add32 sum (g i)) 0
    = Aliasing.sum_below (Z.to_nat n) g.
Proof.
  intros Hn Hg.
  pose (Inv := fun (i sum : Z) =>
    0 <= i <= n /\ sum = Aliasing.sum_below (Z.to_nat i) g /\
    0 <= sum <= i * 65536).
  assert (HI : Inv n (for_lt 0 n (fun i sum => add32 sum (g i)) 0)).
  { apply for_lt_inv; [lia | |].
    - unfold Inv. cbn. lia.
    - intros j sum Hj (Hr & Hsum & Hb).
      specialize (Hg j Hj).
      rewrite add32_id by (unfold in_int, INT_MIN, INT_MAX; lia).
      unfold Inv. split; [lia|]. split; [|lia].
      replace (Z.to_nat (j + 1)) with (S (Z.to_nat j)) by lia.
      cbn [Aliasing.sum_below]. rewrite Z2Nat.id by lia. now rewrite Hsum. }
  exact (proj1 (proj2 HI)).
Qed.

Lemma mul32_small i k :
  0 <= i <= 16384 -> 0 <= k <= 4 -> mul32 i k = i * k /\ 0 <= i * k <= 65536.
Proof.
  intros Hi Hk. assert (0 <= i * k <= 65536) by nia.
  split; [|assumption].
  apply wrap_id. unfold in_int, INT_MIN, INT_MAX. lia.
Qed.

Lemma scaled_sum_loop k n :
  0 <= k <= 4 -> 0 <= n <= 16384 ->
  for_lt 0 n (fun i sum => add32 sum (mul32 i k)) 0
    = Aliasing.sum_below (Z.to_nat n) (fun i => k * i).
Proof.
  intros Hk Hn.
  rewrite (sum_loop (fun i => mul32 i k)) by
    (try exact Hn; intros i Hi;
     rewrite (proj1 (mul32_small i k ltac:(lia) Hk));
     exact (proj2 (mul32_small i k ltac:(lia) Hk))).
  apply sum_below_ext. intros i Hi.
  rewrite (proj1 (mul32_small i k ltac:(lia) Hk)). ring.
Qed.

(** The four loops together, for any bound that cannot overflow. *)
Lemma aliasing_loops_sum n :
  0 <= n <= 16384 ->
  Aliasing.loop_a n + Aliasing.loop_b n + Aliasing.loop_c n + Aliasing.loop_d n
    = Aliasing.sum_below (Z.to_nat n) (fun i => i + 2 * i + 3 * i + 4 * i).
Proof.
  intros Hn.
  unfold Aliasing.loop_a, Aliasing.loop_b, Aliasing.loop_c, Aliasing.loop_d.
  rewrite (sum_loop (fun i => i)) by (try exact Hn; intros; lia).
  rewrite !scaled_sum_loop by (try exact Hn; lia).
  rewrite !sum_below_plus. reflexivity.
Qed.

(** ** The rotating counter of pattern.c *)

(** After [n] iterations the counter is [n mod 3], every iteration [k] was
    Not-Taken exactly when [k mod 3 = 2], and [result] counts the Taken
    ones. *)
Lemma pattern_loop_invariant n :
  0 <= n <= 2 ^ 30 ->
  let l := for_lt 0 n Pattern.body (Pattern.mkLocals 0 0 []) in
  Pattern.state_ l = n mod 3 /\
  Pattern.result l = n - n / 3 /\
  Pattern.branches l
    = map (fun k => negb (Z.of_nat k mod 3 =? 2)) (seq 0 (Z.to_nat n)).
Proof.
  intros Hn.
  pose (Inv := fun (i : Z) (l : Pattern.locals) =>
    0 <= i <= n /\
    Pattern.state_ l = i mod 3 /\
    Pattern.result l = i - i / 3 /\
    Pattern.branches l
      = map (fun k => negb (Z.of_nat k mod 3 =? 2)) (seq 0 (Z.to_nat i))).
  assert (HI : Inv n (for_lt 0 n Pattern.body (Pattern.mkLocals 0 0 []))).
  { apply for_lt_inv; [lia | |].
    - unfold Inv. cbn. repeat split; lia.
    - intros j l Hj (Hr & Hst & Hres & Hbr).
      unfold Inv, Pattern.body. cbn [Pattern.state_ Pattern.result Pattern.branches].
      rewrite Hst, Hres, Hbr.
      rewrite (add32_id (j mod 3) 1)
        by (unfold in_int, INT_MIN, INT_MAX; Z.div_mod_to_equations; lia).
      assert (Hstate : (if j mod 3 + 1 =? 3 then 0 else j mod 3 + 1) = (j + 1) mod 3).
      { destruct (Z.eqb_spec (j mod 3 + 1) 3); Z.div_mod_to_equations; lia. }
      assert (Htaken : negb ((j + 1) mod 3 =? 0) = negb (j mod 3 =? 2)).
      { f_equal. destruct (Z.eqb_spec ((j + 1) mod 3) 0), (Z.eqb_spec (j mod 3) 2);
          try reflexivity; Z.div_mod_to_equations; lia. }
      rewrite Hstate, Htaken.
      split; [lia|]. split; [reflexivity|]. split.
      + destruct (Z.eqb_spec (j mod 3) 2); cbn [negb];
          [|rewrite add32_id by (unfold in_int, INT_MIN, INT_MAX;
                                 Z.div_mod_to_equations; lia)];
          Z.div_mod_to_equations; lia.
      + replace (Z.to_nat (j + 1)) with (S (Z.to_nat j)) by lia.
        rewrite seq_S, map_app. cbn [map Nat.add].
        now rewrite Z2Nat.id by lia. }
  destruct HI as (_ & H1 & H2 & H3). auto.
Qed.

(** * The properties of the specification *)

(** C10: the software multiply [mul(a, b)] terminates for all 32-bit [a]
    and [b] (32 tests of the loop condition always suffice); for [b >= 0]
    it returns [a * b] modulo 2^32, for [b < 0] it returns 0 because the
    loop exits at its first test; and [factorial(n)], for every
    [n < INT_MAX] (where its index [i] cannot overflow), only ever passes
    non-negative multipliers, so it computes the same with any routine that
    agrees with [mul] on those. *)
Theorem mul_terminates_and_multiplies (fuel : nat) (a b : Z) :
  (32 <= fuel)%nat -> in_int a -> in_int b ->
  (exists r,
     Factorial.mul fuel a b = Some r /\ in_int r /\
     (0 <= b -> r mod 2 ^ 32 = (a * b) mod 2 ^ 32) /\
     (b < 0 -> r = 0 /\ Factorial.mul 1 a b = Some 0)) /\
  (forall (m' : Z -> Z -> option Z) (n : Z),
     n < INT_MAX ->
     (forall x i, 0 <= i -> m' x i = Factorial.mul fuel x i) ->
     Factorial.factorial_with m' n = Factorial.factorial fuel n).
Proof.
  intros Hf Ha Hb. split.
  - destruct (Z_lt_le_dec b 0) as [Hneg|Hpos].
    + exists 0. destruct fuel as [|f]; [lia|].
      unfold Factorial.mul. rewrite mul_loop_nonpos by lia.
      repeat split; try lia; try reflexivity.
      * unfold in_int, INT_MIN, INT_MAX. lia.
      * unfold in_int, INT_MIN, INT_MAX. lia.
      * apply mul_loop_nonpos. lia.
    + exists (wrap (a * b)).
      rewrite mul_nonneg by (try exact Hf; unfold in_int in Hb; lia).
      repeat split; try lia; try apply wrap_in_int.
      intros _. apply wrap_mod.
  - intros m' n _ Hext. unfold Factorial.factorial.
    apply factorial_with_ext. intros x i Hi. apply Hext. lia.
Qed.

Lemma mul_terminates_and_multiplies_witness :
  (32 <= 32)%nat /\ in_int 7 /\ in_int 6 /\
  exists r, Factorial.mul 32 7 6 = Some r /\ r mod 2 ^ 32 = (7 * 6) mod 2 ^ 32.
Proof.
  assert (H32 : (32 <= 32)%nat) by lia.
  assert (H7 : in_int 7) by (unfold in_int, INT_MIN, INT_MAX; lia).
  assert (H6 : in_int 6) by (unfold in_int, INT_MIN, INT_MAX; lia).
  split; [exact H32|]. split; [exact H7|]. split; [exact H6|].
  destruct (proj1 (mul_terminates_and_multiplies 32 7 6 H32 H7 H6))
    as (r & Hr & _ & Hmod & _).
  exists r. split; [exact Hr | apply Hmod; lia].
Defined.

(** C4: the factorial workload stores exactly 120 = 5! to address 0x4, on
    every run (whatever the initial memory), the product being computed by
    the shift-and-add multiply. *)
Theorem factorial_result_120 (fuel : nat) (m : mem) :
  (32 <= fuel)%nat ->
  exists s,
    Factorial.main fuel (init m) = Some s /\
    Factorial.factorial fuel 5 = Some (1 * 2 * 3 * 4 * 5) /\
    load RESULT_ADDR s = 120 /\
    st_log s = [(RESULT_ADDR, 120); (STATUS_ADDR, STATUS_PASS);
                (DONE_ADDR, DONE_MAGIC)].
Proof.
  intros Hf. unfold Factorial.main.
  rewrite (factorial_5 fuel Hf). cbn [bind].
  eexists. split; [reflexivity|].
  repeat split.
Qed.

Lemma factorial_result_120_witness :
  (32 <= 40)%nat /\
  exists s, Factorial.main 40 (init (fun _ => 0)) = Some s /\
            load RESULT_ADDR s = 120.
Proof.
  assert (H : (32 <= 40)%nat) by lia.
  split; [exact H|].
  destruct (factorial_result_120 40 (fun _ => 0) H) as (s & Hs & _ & Hr & _).
  exists s. split; [exact Hs | exact Hr].
Defined.

(** C5: the Fibonacci workload stores exactly 6765 to address 0x4 on every
    run: the value of [fib(20)] for the naive double recursion with
    [fib(0) = 0] and [fib(1) = 1]. *)
Theorem fibonacci_result_6765 (fuel : nat) (m : mem) :
  (20 <= fuel)%nat ->
  Fibonacci.fib fuel 0 = Some 0 /\
  Fibonacci.fib fuel 1 = Some 1 /\
  (forall f n x y, 1 < n ->
     Fibonacci.fib f (sub32 n 1) = Some x ->
     Fibonacci.fib f (sub32 n 2) = Some y ->
     Fibonacci.fib (S f) n = Some (add32 x y)) /\
  Fibonacci.fib fuel 20 = Some 6765 /\
  exists s,
    Fibonacci.main fuel (init m) = Some s /\
    load RESULT_ADDR s = 6765 /\
    st_log s = [(RESULT_ADDR, 6765); (STATUS_ADDR, STATUS_PASS);
                (DONE_ADDR, DONE_MAGIC)].
Proof.
  intros Hf.
  split; [destruct fuel; [lia | reflexivity]|].
  split; [destruct fuel; [lia | reflexivity]|].
  split.
  { intros f n x y Hn Hx Hy. cbn [Fibonacci.fib].
    destruct (Z.leb_spec n 1); [lia|]. rewrite Hx, Hy. reflexivity. }
  split; [exact (fib_20 fuel Hf)|].
  unfold Fibonacci.main. rewrite (fib_20 fuel Hf). cbn [bind].
  eexists. split; [reflexivity|]. repeat split.
Qed.

Lemma fibonacci_result_6765_witness :
  (20 <= 20)%nat /\
  exists s, Fibonacci.main 20 (init (fun _ => 0)) = Some s /\
            load RESULT_ADDR s = 6765.
Proof.
  assert (H : (20 <= 20)%nat) by lia.
  split; [exact H|].
  destruct (fibonacci_result_6765 20 (fun _ => 0) H)
    as (_ & _ & _ & _ & s & Hs & Hr & _).
  exists s. split; [exact Hs | exact Hr].
Defined.

(** C6: in the fixed-period pattern generator the branch [if (state != 0)]
    is evaluated once in each of the 100 iterations [i = 0..99], and its
    outcomes are Taken, Taken, Not-Taken repeating: the condition is false
    exactly when [i mod 3 = 2]. *)
Theorem pattern_branch_sequence :
  length (Pattern.branches Pattern.loop) = 100%nat /\
  (forall i, 0 <= i < 100 ->
     nth (Z.to_nat i) (Pattern.branches Pattern.loop) false
       = negb (i mod 3 =? 2)) /\
  Pattern.branches Pattern.loop
    = concat (repeat [true; true; false] 33) ++ [true].
Proof.
  destruct (pattern_loop_invariant 100 ltac:(lia)) as (_ & _ & E).
  fold Pattern.loop in E.
  split; [rewrite E, length_map, length_seq; reflexivity|].
  split; [|rewrite E; vm_compute; reflexivity].
  intros i Hi. rewrite E.
  change false with ((fun k => negb (Z.of_nat k mod 3 =? 2)) 2%nat) at 1.
  rewrite map_nth, seq_nth by lia.
  cbn [Nat.add]. now rewrite Z2Nat.id by lia.
Qed.

Lemma pattern_branch_sequence_witness :
  0 <= 5 < 100 /\
  nth (Z.to_nat 5) (Pattern.branches Pattern.loop) false = negb (5 mod 3 =? 2).
Proof.
  assert (H : 0 <= 5 < 100) by lia.
  split; [exact H|].
  exact (proj1 (proj2 pattern_branch_sequence) 5 H).
Defined.

(** C2 (as the code behaves): the pattern generator increments [result] on
    every Taken outcome, so after the 100 iterations it holds
    100 - 100 / 3 = 67, the number of Taken outcomes, and 67 is what is
    stored to address 0x4 on every run; the value 34 announced by the
    comment in the source is not. *)
Theorem pattern_result_67 (m : mem) :
  Pattern.result Pattern.loop = 100 - 100 / 3 /\
  Pattern.result Pattern.loop
    = Z.of_nat (length (filter (fun b => b) (Pattern.branches Pattern.loop))) /\
  load RESULT_ADDR (Pattern.main (init m)) = 67 /\
  st_log (Pattern.main (init m))
    = [(RESULT_ADDR, 67); (STATUS_ADDR, STATUS_PASS); (DONE_ADDR, DONE_MAGIC)] /\
  load RESULT_ADDR (Pattern.main (init m)) <> 34.
Proof.
  destruct (pattern_loop_invariant 100 ltac:(lia)) as (_ & E & B).
  fold Pattern.loop in E, B.
  split; [exact E|].
  split; [rewrite E, B; vm_compute; reflexivity|].
  assert (L : load RESULT_ADDR (Pattern.main (init m)) = 67).
  { unfold Pattern.main. rewrite result_word. exact E. }
  split; [exact L|].
  split; [|rewrite L; discriminate].
  unfold Pattern.main. cbn [st_log store store_volatile init app]. rewrite E. reflexivity.
Qed.

(** C7: the aliasing workload stores to address 0x4 the value fixed by
    its loop bounds and multipliers alone,
    100 * (sum over i < 10 of i + 2i + 3i + 4i)
    + 100 * (sum over i < 8 of i + 2i + 3i + 4i) = 100 * 450 + 100 * 280
    = 73000, whatever the initial memory; for any bound [n] the four loops
    together return the sum over i < n of i + 2i + 3i + 4i. *)
Theorem aliasing_result_closed_form (m : mem) :
  (forall n, 0 <= n <= 16384 ->
     Aliasing.loop_a n + Aliasing.loop_b n + Aliasing.loop_c n + Aliasing.loop_d n
       = Aliasing.sum_below (Z.to_nat n) (fun i => i + 2 * i + 3 * i + 4 * i)) /\
  Aliasing.compute
    = 100 * Aliasing.sum_below 10 (fun i => i + 2 * i + 3 * i + 4 * i)
      + 100 * Aliasing.sum_below 8 (fun i => i + 2 * i + 3 * i + 4 * i) /\
  Aliasing.sum_below 10 (fun i => i + 2 * i + 3 * i + 4 * i) = 450 /\
  Aliasing.sum_below 8 (fun i => i + 2 * i + 3 * i + 4 * i) = 280 /\
  load RESULT_ADDR (Aliasing.main (init m)) = 73000 /\
  st_log (Aliasing.main (init m))
    = [(RESULT_ADDR, 73000); (STATUS_ADDR, STATUS_PASS); (DONE_ADDR, DONE_MAGIC)].
Proof.
  assert (E : Aliasing.compute = 73000) by (vm_compute; reflexivity).
  split; [exact aliasing_loops_sum|].
  split; [vm_compute; reflexivity|].
  split; [vm_compute; reflexivity|].
  split; [vm_compute; reflexivity|].
  split.
  - unfold Aliasing.main. rewrite result_word. exact E.
  - unfold Aliasing.main. cbn [st_log store store_volatile init app]. rewrite E. reflexivity.
Qed.

Lemma aliasing_result_closed_form_witness :
  0 <= 10 <= 16384 /\
  Aliasing.loop_a 10 + Aliasing.loop_b 10 + Aliasing.loop_c 10 + Aliasing.loop_d 10
    = Aliasing.sum_below 10 (fun i => i + 2 * i + 3 * i + 4 * i).
Proof.
  assert (H : 0 <= 10 <= 16384) by lia.
  split; [exact H|].
  exact (proj1 (aliasing_result_closed_form (fun _ => 0)) 10 H).
Defined.

(** C8: every workload other than the sorting one stores the success code
    0x0F to address 0x104 unconditionally: its run ends, 0x104 then holds
    0x0F, and no other value is ever stored there; hence a run that stores
    anything else to 0x104 is a run of the sorting workload. *)
Theorem non_sorting_status_pass (w : workload) (fuel : nat) (data : addr) (m : mem) :
  (32 <= fuel)%nat ->
  (w <> W_bubblesort ->
   exists s,
     run w fuel data m = Some s /\
     load STATUS_ADDR s = STATUS_PASS /\
     (forall v, In (STATUS_ADDR, v) (st_log s) -> v = STATUS_PASS)) /\
  (forall s v,
     run w fuel data m = Some s ->
     In (STATUS_ADDR, v) (st_log s) -> v <> STATUS_PASS ->
     w = W_bubblesort).
Proof.
  intros Hf.
  assert (Hplain : w <> W_bubblesort ->
    exists s, run w fuel data m = Some s /\
      load STATUS_ADDR s = STATUS_PASS /\
      (forall v, In (STATUS_ADDR, v) (st_log s) -> v = STATUS_PASS)).
  { intros Hw. destruct (run_plain w fuel data m Hw Hf) as (r & s0 & Hr & Hs0).
    eexists. split; [exact Hr|]. split; [apply status_word|].
    intros v.
    destruct Hs0 as [[_ ->]|[_ ->]];
      cbn [st_log store store_volatile init app];
      intros [H|[H|[H|[]]]]; inversion H; reflexivity. }
  split; [exact Hplain|].
  intros s v Hs Hin Hv.
  destruct w; try reflexivity; exfalso;
    (destruct Hplain as (s' & Hs' & _ & Hall); [discriminate|]);
    rewrite Hs in Hs'; inversion Hs'; subst s'; exact (Hv (Hall v Hin)).
Qed.

Lemma non_sorting_status_pass_witness :
  (32 <= 32)%nat /\
  exists s, run W_complex 32 4096 (fun _ => 0) = Some s /\
            load STATUS_ADDR s = STATUS_PASS.
Proof.
  assert (H : (32 <= 32)%nat) by lia.
  split; [exact H|].
  destruct (proj1 (non_sorting_status_pass W_complex 32 4096 (fun _ => 0) H))
    as (s & Hs & Hl & _); [discriminate|].
  exists s. split; [exact Hs | exact Hl].
Defined.

(** C9: [bubblesort(arr, n)] rearranges the array in place: for every
    array of length [n] the elements after the call are a permutation of
    the elements before, every store of the call goes to one of
    [arr[0..n-1]], and memory outside the array is unchanged. *)
Theorem bubblesort_permutes_in_place (arr : addr) (n : Z) (s : state) :
  0 <= n <= INT_MAX ->
  Permutation (Bubblesort.contents arr n (Bubblesort.bubblesort arr n s))
              (Bubblesort.contents arr n s) /\
  (forall a, ~ Bubblesort.in_array arr n a ->
     load a (Bubblesort.bubblesort arr n s) = load a s) /\
  (exists l,
     st_log (Bubblesort.bubblesort arr n s) = st_log s ++ l /\
     Forall (fun e => Bubblesort.in_array arr n (fst e)) l).
Proof.
  intros Hn.
  destruct (bubblesort_correct arr n s Hn) as [_ Hfr Hperm Hlog].
  split; [exact Hperm|]. split; [|exact Hlog].
  intros a Ha. unfold load. apply Hfr, Ha.
Qed.

Lemma bubblesort_permutes_in_place_witness :
  0 <= 5 <= INT_MAX /\
  Permutation
    (Bubblesort.contents 4096 5
       (Bubblesort.bubblesort 4096 5 (init (fun a => - a))))
    (Bubblesort.contents 4096 5 (init (fun a => - a))).
Proof.
  assert (H : 0 <= 5 <= INT_MAX) by (unfold INT_MAX; lia).
  split; [exact H|].
  exact (proj1 (bubblesort_permutes_in_place 4096 5 (init (fun a => - a)) H)).
Defined.

(** C1: in the sorting workload, after [bubblesort] has run on the
    50-element array the array is non-decreasing ([arr[i] <= arr[i+1]] for
    [i] in 0..48), and it still is when [main] returns.  The step of
    [main] that checks the array and stores the status word stores the
    success sentinel 0x0F to 0x104 if the array it finds is non-decreasing
    and the failure sentinel 0x01 if it is not, whatever state it is run
    in; [main] runs it on the array as sorted, so the status word written
    to 0x104 is 0x0F exactly if that array is non-decreasing, else 0x01. *)
Theorem sorting_workload_sorted_and_reported (data : addr) (m : mem) :
  Bubblesort.apart data Bubblesort.SIZE STATUS_ADDR ->
  Bubblesort.apart data Bubblesort.SIZE DONE_ADDR ->
  let sorted := Bubblesort.bubblesort data Bubblesort.SIZE (init m) in
  let final := Bubblesort.main data (init m) in
  Bubblesort.non_decreasing data Bubblesort.SIZE sorted /\
  Bubblesort.non_decreasing data Bubblesort.SIZE final /\
  (forall t,
     (nonzero (Bubblesort.verify data Bubblesort.SIZE t) = true
        <-> Bubblesort.non_decreasing data Bubblesort.SIZE t) /\
     (nonzero (Bubblesort.verify data Bubblesort.SIZE t) = false
        <-> ~ Bubblesort.non_decreasing data Bubblesort.SIZE t)) /\
  (forall t,
     (Bubblesort.non_decreasing data Bubblesort.SIZE t ->
        Bubblesort.report data t = store_volatile STATUS_ADDR STATUS_PASS t) /\
     (~ Bubblesort.non_decreasing data Bubblesort.SIZE t ->
        Bubblesort.report data t = store_volatile STATUS_ADDR STATUS_FAIL t) /\
     (load STATUS_ADDR
        (store_volatile DONE_ADDR DONE_MAGIC (Bubblesort.report data t))
        = STATUS_PASS <-> Bubblesort.non_decreasing data Bubblesort.SIZE t) /\
     (load STATUS_ADDR
        (store_volatile DONE_ADDR DONE_MAGIC (Bubblesort.report data t))
        = STATUS_FAIL <-> ~ Bubblesort.non_decreasing data Bubblesort.SIZE t)) /\
  final = store_volatile DONE_ADDR DONE_MAGIC (Bubblesort.report data sorted) /\
  exists st,
    st_log final = st_log sorted ++ [(STATUS_ADDR, st); (DONE_ADDR, DONE_MAGIC)] /\
    load STATUS_ADDR final = st /\
    st = (if nonzero (Bubblesort.verify data Bubblesort.SIZE sorted)
          then STATUS_PASS else STATUS_FAIL) /\
    (st = STATUS_PASS <-> Bubblesort.non_decreasing data Bubblesort.SIZE sorted) /\
    (st = STATUS_FAIL <-> ~ Bubblesort.non_decreasing data Bubblesort.SIZE sorted).
Proof.
  intros Hst Hdone sorted final.
  assert (Hsorted : Bubblesort.non_decreasing data Bubblesort.SIZE sorted).
  { apply ordered_non_decreasing.
    apply (Bubblesort.sort_ordered _ _ _ _ (bubblesort_correct data _ (init m) SIZE_range)). }
  assert (Hverify : forall t,
    (nonzero (Bubblesort.verify data Bubblesort.SIZE t) = true
       <-> Bubblesort.non_decreasing data Bubblesort.SIZE t) /\
    (nonzero (Bubblesort.verify data Bubblesort.SIZE t) = false
       <-> ~ Bubblesort.non_decreasing data Bubblesort.SIZE t)).
  { intros t.
    destruct (verify_spec data Bubblesort.SIZE t SIZE_range) as [[E H]|[E H]];
      rewrite E; cbn; split; split; intros; try assumption;
      try reflexivity; try discriminate; contradiction. }
  assert (Hreport : forall t,
    (Bubblesort.non_decreasing data Bubblesort.SIZE t ->
       Bubblesort.report data t = store_volatile STATUS_ADDR STATUS_PASS t) /\
    (~ Bubblesort.non_decreasing data Bubblesort.SIZE t ->
       Bubblesort.report data t = store_volatile STATUS_ADDR STATUS_FAIL t)).
  { intros t. destruct (Hverify t) as [[_ Hp] [_ Hf]].
    unfold Bubblesort.report. split; intros H.
    - now rewrite (Hp H).
    - now rewrite (Hf H). }
  split; [exact Hsorted|]. split; [|split; [exact Hverify|]].
  - intros i Hi. subst final. rewrite sorting_main_passes.
    rewrite !load_store_volatile.
    assert (Hne : forall j a, 0 <= j < Bubblesort.SIZE ->
              Bubblesort.apart data Bubblesort.SIZE a ->
              (Bubblesort.elem data j =? a) = false).
    { intros j a Hj Ha. apply Z.eqb_neq. intros Heq.
      apply (in_array_not_apart data Bubblesort.SIZE a); [|exact Ha].
      exists j. split; [exact Hj | now symmetry]. }
    rewrite !Hne by (try assumption; lia).
    apply Hsorted, Hi.
  - split; [|split; [reflexivity|]].
    + intros t. destruct (Hreport t) as [Hp Hf].
      split; [exact Hp|]. split; [exact Hf|].
      destruct (verify_spec data Bubblesort.SIZE t SIZE_range) as [[_ H]|[_ H]].
      * rewrite (Hp H), status_word.
        split; split; intros; try assumption; try reflexivity.
        -- discriminate.
        -- contradiction.
      * rewrite (Hf H), status_word.
        split; split; intros; try assumption; try reflexivity.
        -- discriminate.
        -- contradiction.
    + exists STATUS_PASS. subst final. rewrite sorting_main_passes.
      destruct (Hverify sorted) as [[_ Hv] _]. rewrite (Hv Hsorted).
      split; [cbn [st_log store_volatile]; rewrite <- app_assoc; reflexivity|].
      split; [apply status_word|]. split; [reflexivity|].
      split; split; intros; try assumption; try reflexivity.
      * discriminate.
      * contradiction.
Qed.

Lemma sorting_workload_sorted_and_reported_witness :
  Bubblesort.apart 4096 Bubblesort.SIZE STATUS_ADDR /\
  Bubblesort.apart 4096 Bubblesort.SIZE DONE_ADDR /\
  Bubblesort.non_decreasing 4096 Bubblesort.SIZE
    (Bubblesort.main 4096 (init (fun a => - a))) /\
  load STATUS_ADDR (Bubblesort.main 4096 (init (fun a => - a))) = STATUS_PASS /\
  load STATUS_ADDR
    (store_volatile DONE_ADDR DONE_MAGIC
       (Bubblesort.report 4096 (init (fun a => - a)))) = STATUS_FAIL.
Proof.
  assert (H1 : Bubblesort.apart 4096 Bubblesort.SIZE STATUS_ADDR)
    by (left; unfold STATUS_ADDR; lia).
  assert (H2 : Bubblesort.apart 4096 Bubblesort.SIZE DONE_ADDR)
    by (left; unfold DONE_ADDR; lia).
  split; [exact H1|]. split; [exact H2|].
  destruct (sorting_workload_sorted_and_reported 4096 (fun a => - a) H1 H2)
    as (Hs & Hf & _ & Hrep & _ & st & _ & Hload & _ & Hpass & _).
  split; [exact Hf|].
  split; [rewrite Hload; apply Hpass, Hs|].
  destruct (Hrep (init (fun a => - a))) as (_ & _ & _ & Hfail).
  apply Hfail. intros Hnd.
  assert (H0 : 0 <= 0 < Bubblesort.SIZE - 1) by (unfold Bubblesort.SIZE; lia).
  specialize (Hnd 0 H0).
  unfold load, Bubblesort.elem, init in Hnd. cbn [st_mem] in Hnd. lia.
Defined.

(** C3, as stated, fails for the sorting workload: its [main] stores no
    result to address 0x4, so the status and magic stores cannot come
    after such a store.  Here the array lies at 0x1000 and initially holds
    a decreasing sequence. *)
Lemma sorting_run_breaks_completion_protocol :
  exists s,
    run W_bubblesort 32 4096 (fun a => - a) = Some s /\
    ~ completion_protocol s.
Proof.
  exists (Bubblesort.main 4096 (init (fun a => - a))).
  split; [reflexivity|].
  intros (_ & _ & (i & j & Hi & _) & _).
  apply first_store_In in Hi. destruct Hi as (v & Hin).
  assert (Hap : Bubblesort.apart 4096 Bubblesort.SIZE RESULT_ADDR)
    by (left; unfold RESULT_ADDR; lia).
  exact (sorting_stores_no_result 4096 (fun a => - a) Hap v Hin).
Qed.

Lemma for_range_preserves {A B : Type} (f : A -> B) (body : Z -> A -> A) :
  (forall j t, f (body j t) = f t) ->
  forall cnt i s, f (for_range cnt i body s) = f s.
Proof.
  intros H. induction cnt as [|c IH]; intros i s; [reflexivity|].
  cbn [for_range]. now rewrite IH, H.
Qed.

(** The exchanges of [bubblesort] are plain stores. *)
Lemma bubblesort_volatile arr n s :
  st_volatile (Bubblesort.bubblesort arr n s) = st_volatile s.
Proof.
  unfold Bubblesort.bubblesort, for_lt.
  apply (for_range_preserves st_volatile). intros i t.
  apply (for_range_preserves st_volatile). intros j u.
  unfold Bubblesort.swap_step. destruct (_ >? _); reflexivity.
Qed.

Ltac mailbox_members :=
  let v := fresh "v" in let H := fresh "H" in
  intros v; cbn [st_log store store_volatile init app];
  intros [H|[H|[H|[]]]]; inversion H; reflexivity.

(** C3, amended: for every workload, after [main] returns address 0x100
    holds the completion magic constant 0xCAFEF00D and address 0x104 holds
    a recognized status code (0x0F or 0x01); each of the two addresses is
    stored to with that value only, and the store of the status comes
    before the store of the magic constant, which is the last volatile
    store of the run.  For the pattern, aliasing and complex workloads both
    come strictly after the store of the result to address 0x4.  For the
    factorial and Fibonacci workloads address 0x4 holds the result (120,
    6765) when [main] returns.  The sorting workload stores nothing to
    address 0x4. *)
Theorem completion_protocol_amended
    (w : workload) (fuel : nat) (data : addr) (m : mem) :
  (32 <= fuel)%nat ->
  Bubblesort.apart data Bubblesort.SIZE RESULT_ADDR ->
  Bubblesort.apart data Bubblesort.SIZE STATUS_ADDR ->
  Bubblesort.apart data Bubblesort.SIZE DONE_ADDR ->
  exists s st,
    run w fuel data m = Some s /\
    word_of_int (load DONE_ADDR s) = 0xCAFEF00D /\
    load STATUS_ADDR s = st /\ recognized_status st /\
    (forall v, In (STATUS_ADDR, v) (st_log s) -> v = st) /\
    (forall v, In (DONE_ADDR, v) (st_log s) -> v = DONE_MAGIC) /\
    (exists pre,
       st_volatile s = pre ++ [(STATUS_ADDR, st); (DONE_ADDR, DONE_MAGIC)] /\
       never_stored STATUS_ADDR pre /\ never_stored DONE_ADDR pre) /\
    (w = W_pattern \/ w = W_aliasing \/ w = W_complex ->
       exists r,
         load RESULT_ADDR s = r /\
         st_volatile s
           = [(RESULT_ADDR, r); (STATUS_ADDR, st); (DONE_ADDR, DONE_MAGIC)] /\
         stored_before RESULT_ADDR STATUS_ADDR (st_volatile s) /\
         stored_before RESULT_ADDR DONE_ADDR (st_volatile s)) /\
    (w = W_factorial -> load RESULT_ADDR s = 120) /\
    (w = W_fibonacci -> load RESULT_ADDR s = 6765) /\
    (w = W_bubblesort -> never_stored RESULT_ADDR (st_log s)).
Proof.
  intros Hf Hres Hst Hdone.
  assert (Hplain : forall r,
    let s := store_volatile DONE_ADDR DONE_MAGIC
               (store_volatile STATUS_ADDR STATUS_PASS
                  (store RESULT_ADDR r (init m))) in
    word_of_int (load DONE_ADDR s) = 0xCAFEF00D /\
    load STATUS_ADDR s = STATUS_PASS /\ recognized_status STATUS_PASS /\
    (forall v, In (STATUS_ADDR, v) (st_log s) -> v = STATUS_PASS) /\
    (forall v, In (DONE_ADDR, v) (st_log s) -> v = DONE_MAGIC) /\
    (exists pre,
       st_volatile s = pre ++ [(STATUS_ADDR, STATUS_PASS); (DONE_ADDR, DONE_MAGIC)] /\
       never_stored STATUS_ADDR pre /\ never_stored DONE_ADDR pre) /\
    load RESULT_ADDR s = r).
  { intros r s. subst s.
    split; [apply done_word|]. split; [apply status_word|]. split; [now left|].
    split; [mailbox_members|]. split; [mailbox_members|].
    split; [|apply result_word_plain].
    exists []. split; [reflexivity|]. split; intros v []. }
  assert (Hvol : forall r,
    let s := store_volatile DONE_ADDR DONE_MAGIC
               (store_volatile STATUS_ADDR STATUS_PASS
                  (store_volatile RESULT_ADDR r (init m))) in
    word_of_int (load DONE_ADDR s) = 0xCAFEF00D /\
    load STATUS_ADDR s = STATUS_PASS /\ recognized_status STATUS_PASS /\
    (forall v, In (STATUS_ADDR, v) (st_log s) -> v = STATUS_PASS) /\
    (forall v, In (DONE_ADDR, v) (st_log s) -> v = DONE_MAGIC) /\
    (exists pre,
       st_volatile s = pre ++ [(STATUS_ADDR, STATUS_PASS); (DONE_ADDR, DONE_MAGIC)] /\
       never_stored STATUS_ADDR pre /\ never_stored DONE_ADDR pre) /\
    exists r',
      load RESULT_ADDR s = r' /\
      st_volatile s
        = [(RESULT_ADDR, r'); (STATUS_ADDR, STATUS_PASS); (DONE_ADDR, DONE_MAGIC)] /\
      stored_before RESULT_ADDR STATUS_ADDR (st_volatile s) /\
      stored_before RESULT_ADDR DONE_ADDR (st_volatile s)).
  { intros r s. subst s.
    split; [apply done_word|]. split; [apply status_word|]. split; [now left|].
    split; [mailbox_members|]. split; [mailbox_members|].
    split.
    - exists [(RESULT_ADDR, r)]. split; [reflexivity|].
      split; intros v [H|[]]; inversion H.
    - exists r. split; [apply result_word|]. split; [reflexivity|].
      split; [exists 0%nat, 1%nat | exists 0%nat, 2%nat];
        cbn; repeat split; lia. }
  destruct w; cbn [run].
  - unfold Factorial.main. rewrite (factorial_5 fuel Hf). cbn [bind].
    destruct (Hplain 120) as (H1 & H2 & H3 & H4 & H5 & H6 & H7).
    eexists. exists STATUS_PASS. split; [reflexivity|].
    repeat (split; [assumption|]).
    split; [intros [H|[H|H]]; discriminate|].
    split; [intros _; exact H7|]. split; discriminate.
  - unfold Fibonacci.main. rewrite (fib_20 fuel) by lia. cbn [bind].
    destruct (Hplain 6765) as (H1 & H2 & H3 & H4 & H5 & H6 & H7).
    eexists. exists STATUS_PASS. split; [reflexivity|].
    repeat (split; [assumption|]).
    split; [intros [H|[H|H]]; discriminate|].
    split; [discriminate|]. split; [intros _; exact H7 | discriminate].
  - destruct (sorting_main_log data m) as (l & Hlog & Hsort & Hl).
    exists (Bubblesort.main data (init m)), STATUS_PASS.
    split; [reflexivity|].
    assert (Hnone : forall a, Bubblesort.apart data Bubblesort.SIZE a ->
              forall v, In (a, v) (st_log (Bubblesort.main data (init m))) ->
              In (a, v) [(STATUS_ADDR, STATUS_PASS); (DONE_ADDR, DONE_MAGIC)]).
    { intros a Ha v Hin. rewrite Hlog in Hin. apply in_app_or in Hin.
      destruct Hin as [Hin|Hin]; [|exact Hin].
      exfalso. exact (never_stored_in_array _ _ _ _ Ha Hl v Hin). }
    rewrite sorting_main_passes in *.
    split; [apply done_word|]. split; [apply status_word|]. split; [now left|].
    split.
    { intros v Hin. apply (Hnone _ Hst) in Hin.
      destruct Hin as [H|[H|[]]]; inversion H; reflexivity. }
    split.
    { intros v Hin. apply (Hnone _ Hdone) in Hin.
      destruct Hin as [H|[H|[]]]; inversion H; reflexivity. }
    split.
    { exists []. cbn [st_volatile store_volatile].
      rewrite bubblesort_volatile. split; [reflexivity|]. split; intros v []. }
    split; [intros [H|[H|H]]; discriminate|].
    split; [discriminate|]. split; [discriminate|].
    intros _ v Hin. apply (Hnone _ Hres) in Hin.
    destruct Hin as [H|[H|[]]]; inversion H.
  - destruct (Hvol (Pattern.result Pattern.loop))
      as (H1 & H2 & H3 & H4 & H5 & H6 & H7).
    eexists. exists STATUS_PASS. split; [reflexivity|].
    repeat (split; [assumption|]).
    split; [intros _; exact H7|].
    split; [discriminate|]. split; discriminate.
  - destruct (Hvol Aliasing.compute) as (H1 & H2 & H3 & H4 & H5 & H6 & H7).
    eexists. exists STATUS_PASS. split; [reflexivity|].
    repeat (split; [assumption|]).
    split; [intros _; exact H7|].
    split; [discriminate|]. split; discriminate.
  - destruct (Hvol Complex.compute) as (H1 & H2 & H3 & H4 & H5 & H6 & H7).
    eexists. exists STATUS_PASS. split; [reflexivity|].
    repeat (split; [assumption|]).
    split; [intros _; exact H7|].
    split; [discriminate|]. split; discriminate.
Qed.

Lemma completion_protocol_amended_witness :
  (32 <= 32)%nat /\
  Bubblesort.apart 4096 Bubblesort.SIZE RESULT_ADDR /\
  Bubblesort.apart 4096 Bubblesort.SIZE STATUS_ADDR /\
  Bubblesort.apart 4096 Bubblesort.SIZE DONE_ADDR /\
  exists s,
    run W_bubblesort 32 4096 (fun a => - a) = Some s /\
    word_of_int (load DONE_ADDR s) = 0xCAFEF00D /\
    recognized_status (load STATUS_ADDR s).
Proof.
  assert (H0 : (32 <= 32)%nat) by lia.
  assert (H1 : Bubblesort.apart 4096 Bubblesort.SIZE RESULT_ADDR)
    by (left; unfold RESULT_ADDR; lia).
  assert (H2 : Bubblesort.apart 4096 Bubblesort.SIZE STATUS_ADDR)
    by (left; unfold STATUS_ADDR; lia).
  assert (H3 : Bubblesort.apart 4096 Bubblesort.SIZE DONE_ADDR)
    by (left; unfold DONE_ADDR; lia).
  split; [exact H0|]. split; [exact H1|]. split; [exact H2|]. split; [exact H3|].
  destruct (completion_protocol_amended W_bubblesort 32 4096 (fun a => - a)
              H0 H1 H2 H3)
    as (s & st & Hs & Hmagic & Hload & Hrec & _).
  exists s. split; [exact Hs|]. split; [exact Hmagic|].
  rewrite Hload. exact Hrec.
Defined.

(** * Further properties of the programs *)

(** ** Accumulating loops in general *)

Lemma wrap_0 : wrap 0 = 0.
Proof. reflexivity. Qed.

Lemma wrap_wrap x : wrap (wrap x) = wrap x.
Proof. apply wrap_id, wrap_in_int. Qed.

Lemma sum_below_S n f :
  Aliasing.sum_below (S n) f = Aliasing.sum_below n f + f (Z.of_nat n).
Proof. reflexivity. Qed.

Lemma sum_below_opp n f :
  Aliasing.sum_below n (fun i => - f i) = - Aliasing.sum_below n f.
Proof.
  induction n as [|n IH]; [reflexivity|].
  rewrite !sum_below_S, IH. ring.
Qed.

Lemma sum_below_scale n k f :
  Aliasing.sum_below n (fun i => k * f i) = k * Aliasing.sum_below n f.
Proof.
  induction n as [|n IH]; [cbn; ring|].
  rewrite !sum_below_S, IH. ring.
Qed.

Lemma sum_below_app a b f :
  Aliasing.sum_below (a + b) f
    = Aliasing.sum_below a f
      + Aliasing.sum_below b (fun i => f (Z.of_nat a + i)).
Proof.
  induction b as [|b IH].
  - rewrite Nat.add_0_r. cbn. ring.
  - rewrite Nat.add_succ_r, !sum_below_S, IH, Nat2Z.inj_add. ring.
Qed.

(** Twice the sum of [0 + 1 + .. + (n - 1)]. *)
Lemma sum_below_id n :
  2 * Aliasing.sum_below n (fun i => i) = Z.of_nat n * (Z.of_nat n - 1).
Proof.
  induction n as [|n IH]; [reflexivity|].
  rewrite sum_below_S, Nat2Z.inj_succ. lia.
Qed.

(** A loop whose body adds [d i] to the accumulator modulo 2^32 returns the
    sum of the [d i] modulo 2^32, whatever the bound. *)
Lemma acc_loop_wrap (body : Z -> Z -> Z) (d : Z -> Z) n :
  (forall i sum, 0 <= i < n -> body i sum = wrap (sum + d i)) ->
  for_lt 0 n body 0 = wrap (Aliasing.sum_below (Z.to_nat n) d).
Proof.
  intros Hbody.
  destruct (Z_le_gt_dec n 0) as [Hn|Hn].
  { rewrite for_lt_empty by lia. replace (Z.to_nat n) with O by lia. reflexivity. }
  pose (Inv := fun (i sum : Z) =>
    0 <= i <= n /\ sum = wrap (Aliasing.sum_below (Z.to_nat i) d)).
  assert (HI : Inv n (for_lt 0 n body 0)).
  { apply for_lt_inv; [lia | |].
    - split; [lia | reflexivity].
    - intros j sum Hj (Hr & Hsum). split; [lia|].
      rewrite Hbody by lia. subst sum. rewrite wrap_add_l.
      replace (Z.to_nat (j + 1)) with (S (Z.to_nat j)) by lia.
      rewrite sum_below_S, Z2Nat.id by lia. reflexivity. }
  exact (proj2 HI).
Qed.

(** ** aliasing.c: the four loops *)

Lemma loop_scaled_wrap k n :
  for_lt 0 n (fun i sum => add32 sum (mul32 i k)) 0
    = wrap (k * Aliasing.sum_below (Z.to_nat n) (fun i => i)).
Proof.
  rewrite (acc_loop_wrap _ (fun i => k * i)).
  - now rewrite sum_below_scale.
  - intros i sum _. unfold add32, mul32. rewrite wrap_add_r. f_equal. ring.
Qed.

Lemma triangle_bound n :
  0 <= n <= 32768 ->
  0 <= Aliasing.sum_below (Z.to_nat n) (fun i => i) <= 536854528.
Proof.
  intros Hn. pose proof (sum_below_id (Z.to_nat n)) as H.
  rewrite Z2Nat.id in H by lia. nia.
Qed.

(** X1: [loop_a(n)] returns 0 for every [n <= 0] and, for [n >= 0], the
    sum 0 + 1 + .. + (n-1) modulo 2^32; up to [n = 65536] that is exactly
    [n * (n - 1) / 2]. *)
Theorem loop_a_closed_form (n : Z) :
  (n <= 0 -> Aliasing.loop_a n = 0) /\
  Aliasing.loop_a n = wrap (Aliasing.sum_below (Z.to_nat n) (fun i => i)) /\
  (0 <= n <= 65536 -> Aliasing.loop_a n = n * (n - 1) / 2).
Proof.
  assert (E : Aliasing.loop_a n
              = wrap (Aliasing.sum_below (Z.to_nat n) (fun i => i))).
  { unfold Aliasing.loop_a. apply acc_loop_wrap. reflexivity. }
  split; [|split; [exact E|]].
  - intros Hn. unfold Aliasing.loop_a. apply for_lt_empty. lia.
  - intros Hn. rewrite E.
    pose proof (sum_below_id (Z.to_nat n)) as H.
    rewrite Z2Nat.id in H by lia.
    assert (Hs : Aliasing.sum_below (Z.to_nat n) (fun i => i) = n * (n - 1) / 2).
    { rewrite <- H, Z.mul_comm, Z.div_mul by lia. reflexivity. }
    rewrite Hs. apply wrap_id.
    unfold in_int, INT_MIN, INT_MAX.
    assert (0 <= n * (n - 1) <= 65536 * 65535) by nia.
    split.
    + apply Z.le_trans with 0; [lia | apply Z.div_pos; lia].
    + apply Z.le_trans with (65536 * 65535 / 2);
        [apply Z.div_le_mono; lia | vm_compute; discriminate].
Qed.

Lemma loop_a_closed_form_witness :
  0 <= 10 <= 65536 /\ Aliasing.loop_a 10 = 10 * (10 - 1) / 2.
Proof.
  assert (H : 0 <= 10 <= 65536) by lia.
  split; [exact H|].
  exact (proj2 (proj2 (loop_a_closed_form 10)) H).
Defined.

(** X2: [loop_b], [loop_c] and [loop_d] differ from [loop_a] only by their
    constant: for [0 <= n <= 32768] they return 2, 3 and 4 times
    [loop_a(n)], and for [n <= 0] all return 0. *)
Theorem scaled_loops_multiples (n : Z) :
  (0 <= n <= 32768 ->
     Aliasing.loop_b n = 2 * Aliasing.loop_a n /\
     Aliasing.loop_c n = 3 * Aliasing.loop_a n /\
     Aliasing.loop_d n = 4 * Aliasing.loop_a n) /\
  (n <= 0 ->
     Aliasing.loop_b n = 0 /\ Aliasing.loop_c n = 0 /\ Aliasing.loop_d n = 0).
Proof.
  split.
  - intros Hn. pose proof (triangle_bound n Hn) as Hb.
    assert (Ea : Aliasing.loop_a n = Aliasing.sum_below (Z.to_nat n) (fun i => i)).
    { unfold Aliasing.loop_a. rewrite (acc_loop_wrap _ (fun i => i)) by reflexivity.
      apply wrap_id. unfold in_int, INT_MIN, INT_MAX. lia. }
    unfold Aliasing.loop_b, Aliasing.loop_c, Aliasing.loop_d.
    rewrite !loop_scaled_wrap, Ea.
    repeat split; apply wrap_id; unfold in_int, INT_MIN, INT_MAX; lia.
  - intros Hn. unfold Aliasing.loop_b, Aliasing.loop_c, Aliasing.loop_d.
    rewrite !for_lt_empty by lia. auto.
Qed.

Lemma scaled_loops_multiples_witness :
  0 <= 8 <= 32768 /\ Aliasing.loop_d 8 = 4 * Aliasing.loop_a 8.
Proof.
  assert (H : 0 <= 8 <= 32768) by lia.
  split; [exact H|].
  exact (proj2 (proj2 (proj1 (scaled_loops_multiples 8) H))).
Defined.

(** ** complex.c: the complementary and periodic loops *)

Lemma half_sum m j :
  0 <= m ->
  2 * Aliasing.sum_below j (fun i => if i <? m then i else - i)
    = if Z.of_nat j <=? m
      then Z.of_nat j * (Z.of_nat j - 1)
      else 2 * (m * (m - 1)) - Z.of_nat j * (Z.of_nat j - 1).
Proof.
  intros Hm. induction j as [|j IH].
  { cbn [Aliasing.sum_below Z.of_nat]. destruct (Z.leb_spec 0 m); lia. }
  rewrite sum_below_S, Z.mul_add_distr_l, IH, Nat2Z.inj_succ.
  destruct (Z.leb_spec (Z.of_nat j) m), (Z.leb_spec (Z.succ (Z.of_nat j)) m),
    (Z.ltb_spec (Z.of_nat j) m); try lia.
  assert (Z.of_nat j = m) by lia. nia.
Qed.

Lemma func_a_wrap n :
  0 <= n ->
  Complex.func_a n
    = wrap (Aliasing.sum_below (Z.to_nat n) (Reference.half_term n)).
Proof.
  intros Hn. unfold Complex.func_a. apply acc_loop_wrap.
  intros i sum Hi. unfold Reference.half_term.
  rewrite Z.quot_div_nonneg by lia.
  destruct (i <? n / 2); unfold add32, sub32; f_equal; ring.
Qed.

Lemma func_b_wrap n :
  0 <= n ->
  Complex.func_b n
    = wrap (- Aliasing.sum_below (Z.to_nat n) (Reference.half_term n)).
Proof.
  intros Hn. unfold Complex.func_b. rewrite <- sum_below_opp.
  apply acc_loop_wrap.
  intros i sum Hi. unfold Reference.half_term.
  rewrite Z.quot_div_nonneg by lia.
  destruct (Z.ltb_spec i (n / 2)), (Z.geb_spec i (n / 2)); try lia;
    unfold add32, sub32; f_equal; ring.
Qed.

Lemma half_sum_bound n :
  0 <= n <= 32768 ->
  2 * Aliasing.sum_below (Z.to_nat n) (Reference.half_term n)
    = 2 * (n / 2 * (n / 2 - 1)) - n * (n - 1) /\
  - 2 ^ 30 <= Aliasing.sum_below (Z.to_nat n) (Reference.half_term n) <= 2 ^ 30.
Proof.
  intros Hn. unfold Reference.half_term.
  pose proof (half_sum (n / 2) (Z.to_nat n) ltac:(apply Z.div_pos; lia)) as H.
  rewrite Z2Nat.id in H by lia.
  assert (Hm : 0 <= n / 2 <= n) by (Z.div_mod_to_equations; lia).
  destruct (Z.leb_spec n (n / 2)) as [Hle|Hgt].
  - assert (n = 0) by (Z.div_mod_to_equations; lia). subst n.
    cbn in *. lia.
  - split; [exact H|]. nia.
Qed.

(** X3: [func_a] and [func_b] take complementary branches: for
    [0 <= n <= 32768], [func_b(n) = - func_a(n)], with
    [2 * func_a(n) = 2 * m * (m - 1) - n * (n - 1)] for [m = n / 2]; for
    [n <= 0] both return 0. *)
Theorem func_a_b_complementary (n : Z) :
  (0 <= n <= 32768 ->
     Complex.func_b n = - Complex.func_a n /\
     2 * Complex.func_a n = 2 * (n / 2 * (n / 2 - 1)) - n * (n - 1)) /\
  (n <= 0 -> Complex.func_a n = 0 /\ Complex.func_b n = 0).
Proof.
  split.
  - intros Hn. destruct (half_sum_bound n Hn) as (Hs & Hb).
    rewrite func_a_wrap, func_b_wrap by lia.
    rewrite !wrap_id by (unfold in_int, INT_MIN, INT_MAX; lia).
    split; [reflexivity | exact Hs].
  - intros Hn. unfold Complex.func_a, Complex.func_b.
    rewrite !for_lt_empty by lia. auto.
Qed.

Lemma func_a_b_complementary_witness :
  0 <= 8 <= 32768 /\ Complex.func_b 8 = - Complex.func_a 8.
Proof.
  assert (H : 0 <= 8 <= 32768) by lia.
  split; [exact H|].
  exact (proj1 (proj1 (func_a_b_complementary 8) H)).
Defined.






Lemma land_low i m : Z.land 15 m = m -> Z.land i m = Z.land (i mod 16) m.
Proof.
  intros Hm. change 16 with (2 ^ 4).
  rewrite <- (Z.land_ones i 4) by lia.
  change (Z.ones 4) with 15.
  now rewrite <- Z.land_assoc, Hm.
Qed.

Ltac eval_closed_tests :=
  repeat match goal with
    | |- context [Z.land ?a ?b] =>
        let v := eval vm_compute in (Z.land a b) in
        progress change (Z.land a b) with v
    | |- context [nonzero ?a] =>
        let v := eval vm_compute in (nonzero a) in
        progress change (nonzero a) with v
    | |- context [?a =? ?b] =>
        let v := eval vm_compute in (a =? b) in
        progress change (a =? b) with v
    end;
  cbv iota.

(** One iteration of [sequential_branches], by the low four bits of [i]. *)
Lemma sequential_body i sum :
  0 <= i ->
  (let sum := if nonzero (Z.land i 1) then add32 sum 1 else sum in
   let sum := if nonzero (Z.land i 2) then add32 sum 2 else sum in
   let sum := if nonzero (Z.land i 4) then add32 sum 4 else sum in
   let sum := if nonzero (Z.land i 8) then add32 sum 8 else sum in
   let sum := if Z.land i 3 =? 0 then add32 sum 10 else sum in
   let sum := if Z.land i 3 =? 1 then add32 sum 20 else sum in
   let sum := if Z.land i 3 =? 2 then add32 sum 30 else sum in
   let sum := if Z.land i 3 =? 3 then add32 sum 40 else sum in
   sum) = wrap (sum + Reference.seq_term i).
Proof.
  intros Hi. cbv zeta. unfold Reference.seq_term.
  rewrite (land_low i 1), (land_low i 2), (land_low i 4), (land_low i 8),
    (land_low i 3) by reflexivity.
  replace (i mod 4) with ((i mod 16) mod 4)
    by (Z.div_mod_to_equations; lia).
  pose proof (Z.mod_pos_bound i 16 ltac:(lia)) as Hr.
  generalize dependent (i mod 16). intros r Hr.
  assert (Hcases : r = 0 \/ r = 1 \/ r = 2 \/ r = 3 \/ r = 4 \/ r = 5 \/
                   r = 6 \/ r = 7 \/ r = 8 \/ r = 9 \/ r = 10 \/ r = 11 \/
                   r = 12 \/ r = 13 \/ r = 14 \/ r = 15) by lia.
  repeat (destruct Hcases as [->|Hcases]); try subst r;
    eval_closed_tests;
    unfold add32; repeat (rewrite wrap_add_l || rewrite <- Z.add_assoc);
    apply f_equal; apply f_equal; reflexivity.
Qed.

Lemma sequential_branches_wrap n :
  Complex.sequential_branches n
    = wrap (Aliasing.sum_below (Z.to_nat n) Reference.seq_term).
Proof.
  unfold Complex.sequential_branches. apply acc_loop_wrap.
  intros i sum Hi. apply sequential_body. lia.
Qed.

Lemma seq_term_period i : Reference.seq_term (16 + i) = Reference.seq_term i.
Proof. unfold Reference.seq_term. Z.div_mod_to_equations. lia. Qed.

Lemma seq_term_periods k i :
  Reference.seq_term (Z.of_nat (16 * k) + i) = Reference.seq_term i.
Proof.
  induction k as [|k IH]; [reflexivity|].
  replace (Z.of_nat (16 * S k) + i) with (16 + (Z.of_nat (16 * k) + i)) by lia.
  now rewrite seq_term_period.
Qed.

Lemma seq_sum k :
  Aliasing.sum_below (16 * k) Reference.seq_term = 520 * Z.of_nat k.
Proof.
  induction k as [|k IH]; [reflexivity|].
  replace (16 * S k)%nat with (16 * k + 16)%nat by lia.
  rewrite sum_below_app, IH.
  rewrite (sum_below_ext 16 _ Reference.seq_term)
    by (intros; apply seq_term_periods).
  change (Aliasing.sum_below 16 Reference.seq_term) with 520. lia.
Qed.

(** X5: every iteration [i] of [sequential_branches] adds
    [i mod 16 + 10 * (i mod 4 + 1)], so each 16 iterations add 520: for
    [0 <= k <= 4000000], [sequential_branches(16 * k) = 520 * k]; for every
    [n] the result is the sum of these terms modulo 2^32, and 0 when
    [n <= 0]. *)
Theorem sequential_branches_period (k : Z) :
  (0 <= k <= 4000000 -> Complex.sequential_branches (16 * k) = 520 * k) /\
  Complex.sequential_branches k
    = wrap (Aliasing.sum_below (Z.to_nat k)
              (fun i => i mod 16 + 10 * (i mod 4 + 1))) /\
  (k <= 0 -> Complex.sequential_branches k = 0).
Proof.
  split; [|split].
  - intros Hk. rewrite sequential_branches_wrap.
    replace (Z.to_nat (16 * k)) with (16 * Z.to_nat k)%nat by lia.
    rewrite seq_sum, Z2Nat.id by lia.
    apply wrap_id. unfold in_int, INT_MIN, INT_MAX. lia.
  - apply sequential_branches_wrap.
  - intros Hk. unfold Complex.sequential_branches. apply for_lt_empty. lia.
Qed.

Lemma sequential_branches_period_witness :
  0 <= 2 <= 4000000 /\ Complex.sequential_branches (16 * 2) = 520 * 2.
Proof.
  assert (H : 0 <= 2 <= 4000000) by lia.
  split; [exact H|].
  exact (proj1 (sequential_branches_period 2) H).
Defined.

(** X6: the correlated-branch workload stores 10160 to address 0x4 on
    every run: [correlated_loops] contributes 0 (its +1/-1 and +2/-2
    steps cancel), the ten calls of [sequential_branches(32)] contribute
    10 * 1040, and the thirty rounds of [func_a(8)], [func_b(8)],
    [func_c(8)] contribute 30 * (-16 + 16 - 8). *)
Theorem complex_result_10160 (m : mem) :
  Complex.correlated_loops = 0 /\
  Complex.sequential_branches 32 = 1040 /\
  Complex.func_a 8 = -16 /\ Complex.func_b 8 = 16 /\ Complex.func_c 8 = -8 /\
  Complex.compute = 0 + 10 * 1040 + 30 * (-16 + 16 + -8) /\
  load RESULT_ADDR (Complex.main (init m)) = 10160 /\
  st_log (Complex.main (init m))
    = [(RESULT_ADDR, 10160); (STATUS_ADDR, STATUS_PASS); (DONE_ADDR, DONE_MAGIC)].
Proof.
  assert (E : Complex.compute = 10160) by (vm_compute; reflexivity).
  do 6 (split; [vm_compute; reflexivity|]).
  split.
  - unfold Complex.main. rewrite result_word. exact E.
  - unfold Complex.main. cbn [st_log store store_volatile init app]. rewrite E. reflexivity.
Qed.

(** ** factorial.c: the multiply and the product loop in general *)

Lemma factorial_wrap fuel n :
  (32 <= fuel)%nat -> 1 <= n < INT_MAX ->
  Factorial.factorial fuel n
    = Some (wrap (Reference.factorial_spec (Z.to_nat n))).
Proof.
  intros Hf Hn.
  unfold Factorial.factorial, Factorial.factorial_with, for_le.
  pose (Inv := fun (i : Z) (acc : option Z) =>
    2 <= i <= n + 1 /\
    acc = Some (wrap (Reference.factorial_spec (Z.to_nat (i - 1))))).
  match goal with |- ?t = _ => assert (HI : Inv (2 + Z.of_nat (Z.to_nat (n - 2 + 1))) t) end.
  { apply for_range_inv.
    - split; [lia | reflexivity].
    - intros j acc Hj (Hr & ->). split; [lia|].
      cbn [bind]. rewrite mul_nonneg by (try exact Hf; lia).
      rewrite wrap_mul_l. do 2 f_equal.
      replace (Z.to_nat (j + 1 - 1)) with (S (Z.to_nat (j - 1))) by lia.
      cbn [Reference.factorial_spec].
      replace (Z.of_nat (S (Z.to_nat (j - 1)))) with j by lia. ring. }
  destruct HI as (_ & ->). do 3 f_equal. lia.
Qed.

Lemma factorial_spec_small n :
  (n <= 12)%nat -> 0 <= Reference.factorial_spec n <= 479001600.
Proof.
  intros Hn.
  do 13 (destruct n as [|n]; [vm_compute; split; discriminate|]). lia.
Qed.

Lemma factorial_spec_big k :
  Reference.factorial_spec (34 + k) mod 2 ^ 32 = 0.
Proof.
  induction k as [|k IH]; [vm_compute; reflexivity|].
  rewrite Nat.add_succ_r. cbn [Reference.factorial_spec].
  rewrite <- Zmult_mod_idemp_r, IH, Z.mul_0_r. reflexivity.
Qed.

(** X7: [factorial(n)] returns 1 for every [n <= 1] (also negative [n])
    without calling [mul]; for [1 <= n < INT_MAX] it returns [n!] modulo
    2^32, which is exactly [n!] up to [n = 12], the last factorial that
    fits an [int]. *)
Theorem factorial_computes_factorial (fuel : nat) (n : Z) :
  (n <= 1 -> Factorial.factorial fuel n = Some 1) /\
  ((32 <= fuel)%nat -> 1 <= n < INT_MAX ->
     Factorial.factorial fuel n
       = Some (wrap (Reference.factorial_spec (Z.to_nat n)))) /\
  ((32 <= fuel)%nat -> 0 <= n <= 12 ->
     Factorial.factorial fuel n = Some (Reference.factorial_spec (Z.to_nat n))) /\
  INT_MAX < Reference.factorial_spec 13.
Proof.
  assert (H1 : n <= 1 -> Factorial.factorial fuel n = Some 1).
  { intros Hn. unfold Factorial.factorial, Factorial.factorial_with, for_le.
    replace (Z.to_nat (n - 2 + 1)) with O by lia. reflexivity. }
  split; [exact H1|]. split; [apply factorial_wrap|].
  split; [|vm_compute; reflexivity].
  intros Hf Hn.
  destruct (Z.eq_dec n 0) as [->|Hn0]; [apply H1; lia|].
  rewrite factorial_wrap by (try exact Hf; unfold INT_MAX; lia).
  pose proof (factorial_spec_small (Z.to_nat n) ltac:(lia)).
  rewrite wrap_id by (unfold in_int, INT_MIN, INT_MAX; lia). reflexivity.
Qed.

Lemma factorial_computes_factorial_witness :
  (32 <= 32)%nat /\ 0 <= 12 <= 12 /\
  Factorial.factorial 32 12 = Some (Reference.factorial_spec 12).
Proof.
  assert (Hf : (32 <= 32)%nat) by lia.
  assert (Hn : 0 <= 12 <= 12) by lia.
  split; [exact Hf|]. split; [exact Hn|].
  exact (proj1 (proj2 (proj2 (factorial_computes_factorial 32 12))) Hf Hn).
Defined.

(** X8: from [n = 34] on, [n!] is a multiple of 2^32, so the wrapping
    product loop of [factorial] returns 0 for every [34 <= n < INT_MAX]. *)
Theorem factorial_zero_from_34 (fuel : nat) (n : Z) :
  (32 <= fuel)%nat -> 34 <= n < INT_MAX ->
  Factorial.factorial fuel n = Some 0.
Proof.
  intros Hf Hn. rewrite factorial_wrap by (try exact Hf; lia).
  f_equal. rewrite <- wrap_0. apply wrap_congr.
  replace (Z.to_nat n) with (34 + (Z.to_nat n - 34))%nat by lia.
  rewrite factorial_spec_big. reflexivity.
Qed.

Lemma factorial_zero_from_34_witness :
  (32 <= 32)%nat /\ 34 <= 40 < INT_MAX /\ Factorial.factorial 32 40 = Some 0.
Proof.
  assert (Hf : (32 <= 32)%nat) by lia.
  assert (Hn : 34 <= 40 < INT_MAX) by (unfold INT_MAX; lia).
  split; [exact Hf|]. split; [exact Hn|].
  exact (factorial_zero_from_34 32 40 Hf Hn).
Defined.

(** X9: on non-negative operands [mul] is commutative, with 1 as unit and
    0 as zero; with a negative multiplier it is not: for [b < 0 <= a],
    [mul(a, b)] is 0 while [mul(b, a)] is [a * b] modulo 2^32. *)
Theorem mul_commutes_on_non_negatives (fuel : nat) (a b : Z) :
  (32 <= fuel)%nat -> in_int a -> in_int b ->
  (0 <= a -> 0 <= b -> Factorial.mul fuel a b = Factorial.mul fuel b a) /\
  Factorial.mul fuel a 1 = Some a /\
  Factorial.mul fuel a 0 = Some 0 /\
  (0 <= b -> Factorial.mul fuel 0 b = Some 0) /\
  (b < 0 <= a ->
     Factorial.mul fuel a b = Some 0 /\
     Factorial.mul fuel b a = Some (wrap (a * b))).
Proof.
  intros Hf Ha Hb. unfold in_int in Ha, Hb.
  split; [|split; [|split; [|split]]].
  - intros Ha0 Hb0. rewrite !mul_nonneg by (try exact Hf; lia).
    do 2 f_equal. ring.
  - rewrite mul_nonneg by (try exact Hf; unfold INT_MAX; lia).
    rewrite Z.mul_1_r, wrap_id by exact Ha. reflexivity.
  - rewrite mul_nonneg by (try exact Hf; unfold INT_MAX; lia).
    now rewrite Z.mul_0_r.
  - intros Hb0. rewrite mul_nonneg by (try exact Hf; lia). reflexivity.
  - intros Hab. split.
    + destruct fuel as [|f]; [lia|]. unfold Factorial.mul.
      apply mul_loop_nonpos. lia.
    + rewrite mul_nonneg by (try exact Hf; lia). do 2 f_equal. ring.
Qed.

Lemma mul_commutes_on_non_negatives_witness :
  (32 <= 32)%nat /\ in_int 6 /\ in_int 7 /\
  Factorial.mul 32 6 7 = Factorial.mul 32 7 6.
Proof.
  assert (Hf : (32 <= 32)%nat) by lia.
  assert (H6 : in_int 6) by (unfold in_int, INT_MIN, INT_MAX; lia).
  assert (H7 : in_int 7) by (unfold in_int, INT_MIN, INT_MAX; lia).
  split; [exact Hf|]. split; [exact H6|]. split; [exact H7|].
  exact (proj1 (mul_commutes_on_non_negatives 32 6 7 Hf H6 H7)
           ltac:(lia) ltac:(lia)).
Defined.

Lemma mul_loop_fuel : forall f a b result,
  0 < b ->
  (Factorial.mul_loop f a b result = None <-> Z.of_nat f <= Z.log2 b + 1).
Proof.
  induction f as [|f IH]; intros a b result Hb.
  - pose proof (Z.log2_nonneg b). split; [intros _; lia | reflexivity].
  - rewrite mul_loop_S.
    destruct (Z.gtb_spec b 0) as [_|]; [|lia].
    destruct (Z.eq_dec b 1) as [->|Hb1].
    + change (Z.shiftr 1 1) with 0. change (Z.log2 1) with 0.
      destruct f as [|f]; [split; [lia | reflexivity]|].
      rewrite mul_loop_nonpos by lia. split; [discriminate | lia].
    + assert (Hs : 0 < Z.shiftr b 1)
        by (rewrite shiftr_1; Z.div_mod_to_equations; lia).
      rewrite IH by exact Hs.
      rewrite Z.log2_shiftr by lia.
      assert (1 <= Z.log2 b) by (apply Z.log2_le_pow2; simpl; lia).
      lia.
Qed.

(** X10: the loop of [mul] runs once per bit of a positive multiplier:
    for [b > 0] it reaches its exit exactly when more than
    [log2 b + 1] tests of [b > 0] are allowed, whatever [a] is; for
    [b <= 0] the first test exits. *)
Theorem mul_loop_runs_once_per_bit (fuel : nat) (a b : Z) :
  (0 < b ->
     ((exists r, Factorial.mul fuel a b = Some r)
        <-> Z.log2 b + 1 < Z.of_nat fuel)) /\
  (b <= 0 -> (1 <= fuel)%nat -> Factorial.mul fuel a b = Some 0).
Proof.
  split.
  - intros Hb. pose proof (mul_loop_fuel fuel a b 0 Hb) as H.
    unfold Factorial.mul. split.
    + intros (r & Hr). rewrite Hr in H.
      destruct (Z_lt_le_dec (Z.log2 b + 1) (Z.of_nat fuel)) as [Hlt|Hle];
        [exact Hlt|].
      apply H in Hle. discriminate.
    + intros Hlt. destruct (Factorial.mul_loop fuel a b 0) as [r|].
      * now exists r.
      * pose proof (proj1 H eq_refl). lia.
  - intros Hb Hf. destruct fuel as [|f]; [lia|].
    apply mul_loop_nonpos, Hb.
Qed.

Lemma mul_loop_runs_once_per_bit_witness :
  0 < 5 /\
  ((exists r, Factorial.mul 4 3 5 = Some r) <-> Z.log2 5 + 1 < Z.of_nat 4).
Proof.
  assert (H : 0 < 5) by lia.
  split; [exact H|].
  exact (proj1 (mul_loop_runs_once_per_bit 4 3 5) H).
Defined.

(** ** fibonacci.c: the recursion in general *)

Lemma fib_S f n :
  Fibonacci.fib (S f) n =
    if n <=? 1 then Some n
    else bind (Fibonacci.fib f (sub32 n 1)) (fun x =>
         bind (Fibonacci.fib f (sub32 n 2)) (fun y => Some (add32 x y))).
Proof. reflexivity. Qed.

Lemma fib_spec_SS n :
  Reference.fib_spec (S (S n)) = Reference.fib_spec (S n) + Reference.fib_spec n.
Proof. reflexivity. Qed.

Lemma fib_wrap : forall f n,
  (Nat.max n 1 <= f)%nat -> Z.of_nat n <= INT_MAX ->
  Fibonacci.fib f (Z.of_nat n) = Some (wrap (Reference.fib_spec n)).
Proof.
  induction f as [|f IH]; intros n Hf Hn; [lia|].
  rewrite fib_S.
  destruct (Z.leb_spec (Z.of_nat n) 1) as [Hle|Hgt].
  - destruct n as [|[|n]]; [reflexivity | reflexivity | lia].
  - destruct n as [|[|n]]; [lia | lia |].
    rewrite (sub32_id _ 1), (sub32_id _ 2)
      by (unfold in_int, INT_MIN, INT_MAX in *; lia).
    replace (Z.of_nat (S (S n)) - 1) with (Z.of_nat (S n)) by lia.
    replace (Z.of_nat (S (S n)) - 2) with (Z.of_nat n) by lia.
    rewrite !IH by lia. cbn [bind].
    unfold add32. rewrite wrap_add_l, wrap_add_r, fib_spec_SS. reflexivity.
Qed.

Lemma fib_pair_spec n :
  Reference.fib_pair n = (Reference.fib_spec n, Reference.fib_spec (S n)).
Proof.
  induction n as [|n IH]; [reflexivity|].
  cbn [Reference.fib_pair]. rewrite IH, fib_spec_SS. f_equal. ring.
Qed.

Lemma fib_spec_small n :
  (n <= 46)%nat -> 0 <= Reference.fib_spec n <= 1836311903.
Proof.
  intros Hn.
  replace (Reference.fib_spec n) with (fst (Reference.fib_pair n))
    by (now rewrite fib_pair_spec).
  do 47 (destruct n as [|n]; [vm_compute; split; discriminate|]). lia.
Qed.

(** X11: [fib(n)] returns [n] itself for every [n <= 1], negative ones
    included; for [0 <= n <= 46] it returns the [n]-th Fibonacci number
    exactly once the recursion may go [n] deep, and for larger [n] the
    Fibonacci number modulo 2^32 (the 47th no longer fits an [int]). *)
Theorem fib_computes_fibonacci (fuel : nat) (n : Z) :
  ((1 <= fuel)%nat -> n <= 1 -> Fibonacci.fib fuel n = Some n) /\
  ((1 <= fuel)%nat -> 0 <= n <= 46 -> n <= Z.of_nat fuel ->
     Fibonacci.fib fuel n = Some (Reference.fib_spec (Z.to_nat n))) /\
  (0 <= n <= INT_MAX -> 1 <= Z.of_nat fuel -> n <= Z.of_nat fuel ->
     Fibonacci.fib fuel n = Some (wrap (Reference.fib_spec (Z.to_nat n)))) /\
  INT_MAX < Reference.fib_spec 47.
Proof.
  assert (Hw : 0 <= n <= INT_MAX -> 1 <= Z.of_nat fuel -> n <= Z.of_nat fuel ->
    Fibonacci.fib fuel n = Some (wrap (Reference.fib_spec (Z.to_nat n)))).
  { intros Hn H1 Hf.
    rewrite <- (Z2Nat.id n) at 1 by lia. apply fib_wrap; lia. }
  split; [|split; [|split; [exact Hw|]]].
  - intros Hf Hn. destruct fuel as [|f]; [lia|]. rewrite fib_S.
    destruct (Z.leb_spec n 1); [reflexivity | lia].
  - intros H1 Hn Hf. rewrite Hw by (unfold INT_MAX; lia).
    pose proof (fib_spec_small (Z.to_nat n) ltac:(lia)).
    rewrite wrap_id by (unfold in_int, INT_MIN, INT_MAX; lia). reflexivity.
  - replace (Reference.fib_spec 47) with (fst (Reference.fib_pair 47))
      by (now rewrite fib_pair_spec).
    vm_compute. reflexivity.
Qed.

Lemma fib_computes_fibonacci_witness :
  (1 <= 30)%nat /\ 0 <= 30 <= 46 /\ 30 <= Z.of_nat 30 /\
  Fibonacci.fib 30 30 = Some (Reference.fib_spec (Z.to_nat 30)).
Proof.
  assert (H1 : (1 <= 30)%nat) by lia.
  assert (H2 : 0 <= 30 <= 46) by lia.
  assert (H3 : 30 <= Z.of_nat 30) by lia.
  split; [exact H1|]. split; [exact H2|]. split; [exact H3|].
  exact (proj1 (proj2 (fib_computes_fibonacci 30 30)) H1 H2 H3).
Defined.

Lemma fib_depth : forall f n,
  in_int n ->
  (Fibonacci.fib f n = None <-> Z.of_nat f < Z.max n 1).
Proof.
  induction f as [|f IH]; intros n Hn.
  - split; [intros _; lia | reflexivity].
  - rewrite fib_S.
    destruct (Z.leb_spec n 1) as [Hle|Hgt].
    + split; [discriminate | lia].
    + unfold in_int, INT_MIN, INT_MAX in Hn.
      rewrite (sub32_id n 1), (sub32_id n 2)
        by (unfold in_int, INT_MIN, INT_MAX; lia).
      pose proof (IH (n - 1) ltac:(unfold in_int, INT_MIN, INT_MAX; lia)) as H1.
      pose proof (IH (n - 2) ltac:(unfold in_int, INT_MIN, INT_MAX; lia)) as H2.
      destruct (Fibonacci.fib f (n - 1)) as [x|];
        destruct (Fibonacci.fib f (n - 2)) as [y|]; cbn [bind].
      * split; [discriminate|]. intros Hlt.
        assert (Hge : ~ Z.of_nat f < Z.max (n - 1) 1)
          by (intros Hc; apply H1 in Hc; discriminate).
        lia.
      * split; [intros _ | reflexivity].
        pose proof (proj1 H2 eq_refl). lia.
      * split; [intros _ | reflexivity].
        pose proof (proj1 H1 eq_refl). lia.
      * split; [intros _ | reflexivity].
        pose proof (proj1 H1 eq_refl). lia.
Qed.

(** X12: the call tree of [fib(n)] is exactly [max(n, 1)] calls deep: the
    recursion returns a value if and only if it may nest that deep. *)
Theorem fib_recursion_depth (fuel : nat) (n : Z) :
  in_int n ->
  ((exists r, Fibonacci.fib fuel n = Some r) <-> Z.max n 1 <= Z.of_nat fuel).
Proof.
  intros Hn. pose proof (fib_depth fuel n Hn) as H. split.
  - intros (r & Hr). rewrite Hr in H.
    destruct (Z_le_gt_dec (Z.max n 1) (Z.of_nat fuel)) as [Hle|Hgt];
      [exact Hle|].
    assert (Hc : Some r = None) by (apply H; lia). discriminate.
  - intros Hle. destruct (Fibonacci.fib fuel n) as [r|].
    + now exists r.
    + pose proof (proj1 H eq_refl). lia.
Qed.

Lemma fib_recursion_depth_witness :
  in_int 20 /\
  ((exists r, Fibonacci.fib 19 20 = Some r) <-> Z.max 20 1 <= Z.of_nat 19).
Proof.
  assert (H : in_int 20) by (unfold in_int, INT_MIN, INT_MAX; lia).
  split; [exact H|].
  exact (fib_recursion_depth 19 20 H).
Defined.

(** ** bubblesort.c: the sort and its check in general *)

Lemma for_range_fixed {A : Type} (body : Z -> A -> A) (s : A) :
  forall cnt i,
    (forall j, i <= j < i + Z.of_nat cnt -> body j s = s) ->
    for_range cnt i body s = s.
Proof.
  induction cnt as [|c IH]; intros i H; [reflexivity|].
  cbn [for_range]. rewrite H by lia. apply IH. intros j Hj. apply H. lia.
Qed.

Lemma for_lt_fixed {A : Type} (body : Z -> A -> A) (s : A) lo hi :
  (forall j, lo <= j < hi -> body j s = s) -> for_lt lo hi body s = s.
Proof.
  intros H. unfold for_lt. apply for_range_fixed. intros j Hj. apply H. lia.
Qed.

Lemma swap_step_in_order arr j s :
  in_int (j + 1) ->
  load (Bubblesort.elem arr j) s <= load (Bubblesort.elem arr (j + 1)) s ->
  Bubblesort.swap_step arr j s = s.
Proof.
  intros Hj Hle. unfold Bubblesort.swap_step. rewrite (add32_id j 1 Hj).
  destruct (Z.gtb_spec (load (Bubblesort.elem arr j) s)
                       (load (Bubblesort.elem arr (j + 1)) s));
    [lia | reflexivity].
Qed.

Lemma map_seq_sorted (f : nat -> Z) : forall len a,
  (forall p q, (a <= p < q)%nat -> (q < a + len)%nat -> f p <= f q) ->
  StronglySorted Z.le (map f (seq a len)).
Proof.
  induction len as [|len IH]; intros a H; [constructor|].
  cbn [seq map]. constructor.
  - apply IH. intros p q Hp Hq. apply H; lia.
  - apply Forall_forall. intros x Hx.
    apply in_map_iff in Hx. destruct Hx as (q & <- & Hq).
    apply in_seq in Hq. apply H; lia.
Qed.

(** X13: [bubblesort(arr, n)] sorts an array of any length
    [0 <= n <= INT_MAX], whatever it holds: afterwards
    [arr[i] <= arr[i + 1]] for every valid [i], and the elements read in
    order are the ascending rearrangement of the elements before. *)
Theorem bubblesort_sorts_any_length (arr : addr) (n : Z) (s : state) :
  0 <= n <= INT_MAX ->
  Bubblesort.non_decreasing arr n (Bubblesort.bubblesort arr n s) /\
  StronglySorted Z.le
    (Bubblesort.contents arr n (Bubblesort.bubblesort arr n s)) /\
  Permutation (Bubblesort.contents arr n (Bubblesort.bubblesort arr n s))
              (Bubblesort.contents arr n s).
Proof.
  intros Hn.
  destruct (bubblesort_correct arr n s Hn) as [Hord _ Hperm _].
  split; [apply ordered_non_decreasing, Hord|]. split; [|exact Hperm].
  unfold Bubblesort.contents. apply map_seq_sorted.
  intros p q Hp Hq. apply Hord; lia.
Qed.

Lemma bubblesort_sorts_any_length_witness :
  0 <= 7 <= INT_MAX /\
  Bubblesort.non_decreasing 4096 7
    (Bubblesort.bubblesort 4096 7 (init (fun a => - a))).
Proof.
  assert (H : 0 <= 7 <= INT_MAX) by (unfold INT_MAX; lia).
  split; [exact H|].
  exact (proj1 (bubblesort_sorts_any_length 4096 7 (init (fun a => - a)) H)).
Defined.

(** X14: on an array of length 0 or 1 (and for any [n <= 1] above
    [INT_MIN]) [bubblesort] does nothing at all, not even a store, and
    [verify] returns 1. *)
Theorem short_arrays_untouched (arr : addr) (n : Z) (s : state) :
  INT_MIN < n <= 1 ->
  Bubblesort.bubblesort arr n s = s /\ Bubblesort.verify arr n s = 1.
Proof.
  intros Hn. unfold Bubblesort.bubblesort, Bubblesort.verify.
  rewrite (sub32_id n 1) by (unfold in_int, INT_MIN, INT_MAX in *; lia).
  split.
  - apply for_lt_empty. lia.
  - replace (Z.to_nat (n - 1 - 0)) with O by lia. reflexivity.
Qed.

Lemma short_arrays_untouched_witness :
  INT_MIN < 1 <= 1 /\
  Bubblesort.bubblesort 4096 1 (init (fun a => - a)) = init (fun a => - a).
Proof.
  assert (H : INT_MIN < 1 <= 1) by (unfold INT_MIN; lia).
  split; [exact H|].
  exact (proj1 (short_arrays_untouched 4096 1 (init (fun a => - a)) H)).
Defined.

Lemma bubblesort_fixed arr n s :
  0 <= n <= INT_MAX ->
  Bubblesort.non_decreasing arr n s ->
  Bubblesort.bubblesort arr n s = s.
Proof.
  intros Hn Hnd. unfold Bubblesort.bubblesort.
  rewrite (sub32_id n 1) by (unfold in_int, INT_MIN, INT_MAX in *; lia).
  apply for_lt_fixed. intros i Hi.
  rewrite (sub32_id n i), (sub32_id (n - i) 1)
    by (unfold in_int, INT_MIN, INT_MAX in *; lia).
  apply for_lt_fixed. intros j Hj.
  apply swap_step_in_order.
  - unfold in_int, INT_MIN, INT_MAX in *. lia.
  - apply Hnd. lia.
Qed.

(** X15: on an array that is already non-decreasing [bubblesort]
    exchanges nothing: it performs no store and returns the state it was
    given; hence sorting twice is the same as sorting once. *)
Theorem bubblesort_keeps_sorted_array (arr : addr) (n : Z) (s : state) :
  0 <= n <= INT_MAX ->
  (Bubblesort.non_decreasing arr n s -> Bubblesort.bubblesort arr n s = s) /\
  Bubblesort.bubblesort arr n (Bubblesort.bubblesort arr n s)
    = Bubblesort.bubblesort arr n s.
Proof.
  intros Hn. split; [apply bubblesort_fixed, Hn|].
  apply bubblesort_fixed; [exact Hn|].
  apply ordered_non_decreasing.
  apply (Bubblesort.sort_ordered _ _ _ _ (bubblesort_correct arr n s Hn)).
Qed.

Lemma bubblesort_keeps_sorted_array_witness :
  0 <= 6 <= INT_MAX /\
  Bubblesort.bubblesort 4096 6
    (Bubblesort.bubblesort 4096 6 (init (fun a => - a)))
  = Bubblesort.bubblesort 4096 6 (init (fun a => - a)).
Proof.
  assert (H : 0 <= 6 <= INT_MAX) by (unfold INT_MAX; lia).
  split; [exact H|].
  exact (proj2 (bubblesort_keeps_sorted_array 4096 6 (init (fun a => - a)) H)).
Defined.

(** X16: [verify(arr, n)] decides sortedness of any array of length
    [0 <= n <= INT_MAX]: it returns 1 exactly when
    [arr[i] <= arr[i + 1]] for every valid [i], returns 0 exactly when
    some neighbours are out of order, and returns nothing else. *)
Theorem verify_decides_order (arr : addr) (n : Z) (s : state) :
  0 <= n <= INT_MAX ->
  (Bubblesort.verify arr n s = 1 <-> Bubblesort.non_decreasing arr n s) /\
  (Bubblesort.verify arr n s = 0 <->
     exists i, 0 <= i < n - 1 /\
       load (Bubblesort.elem arr (i + 1)) s < load (Bubblesort.elem arr i) s) /\
  (Bubblesort.verify arr n s = 1 \/ Bubblesort.verify arr n s = 0).
Proof.
  intros Hn. unfold Bubblesort.verify, Bubblesort.non_decreasing.
  rewrite (sub32_id n 1) by (unfold in_int, INT_MIN, INT_MAX in *; lia).
  destruct (verify_loop_spec arr s (Z.to_nat (n - 1 - 0)) 0 ltac:(lia))
    as [[E H]|[E (k & Hk & H)]].
  - unfold in_int, INT_MIN, INT_MAX in *. lia.
  - rewrite E. split; [|split; [|now left]].
    + split; [intros _ i Hi; apply H; lia | reflexivity].
    + split; [discriminate|]. intros (i & Hi & Hlt).
      specialize (H i ltac:(lia)). lia.
  - rewrite E. split; [|split; [|now right]].
    + split; [discriminate|]. intros Hnd.
      specialize (Hnd k ltac:(lia)). lia.
    + split; [|reflexivity]. intros _. exists k. split; [lia | exact H].
Qed.

Lemma verify_decides_order_witness :
  0 <= 3 <= INT_MAX /\
  (Bubblesort.verify 4096 3 (init (fun a => - a)) = 0 <->
     exists i, 0 <= i < 3 - 1 /\
       load (Bubblesort.elem 4096 (i + 1)) (init (fun a => - a))
         < load (Bubblesort.elem 4096 i) (init (fun a => - a))).
Proof.
  assert (H : 0 <= 3 <= INT_MAX) by (unfold INT_MAX; lia).
  split; [exact H|].
  exact (proj1 (proj2 (verify_decides_order 4096 3 (init (fun a => - a)) H))).
Defined.

(** X17: the check after the sort cannot fail: [verify] returns 1 on the
    result of [bubblesort] for every array and length, so the sorting
    [main] always stores the success code 0x0F and then the magic word,
    and its failure branch is never taken, wherever the array lies. *)
Theorem sorting_main_never_fails (arr : addr) (n : Z) (s : state) :
  (0 <= n <= INT_MAX ->
     Bubblesort.verify arr n (Bubblesort.bubblesort arr n s) = 1) /\
  Bubblesort.main arr s
    = store_volatile DONE_ADDR DONE_MAGIC
        (store_volatile STATUS_ADDR STATUS_PASS
           (Bubblesort.bubblesort arr Bubblesort.SIZE s)) /\
  st_log (Bubblesort.main arr s)
    = st_log (Bubblesort.bubblesort arr Bubblesort.SIZE s)
      ++ [(STATUS_ADDR, STATUS_PASS); (DONE_ADDR, DONE_MAGIC)].
Proof.
  split; [|split].
  - intros Hn.
    destruct (verify_spec arr n (Bubblesort.bubblesort arr n s) Hn)
      as [[E _]|[_ Hno]]; [exact E|].
    exfalso. apply Hno, ordered_non_decreasing.
    apply (Bubblesort.sort_ordered _ _ _ _ (bubblesort_correct arr n s Hn)).
  - apply sorting_main_passes.
  - rewrite sorting_main_passes. cbn [st_log store_volatile].
    rewrite <- app_assoc. reflexivity.
Qed.

Lemma sorting_main_never_fails_witness :
  0 <= 9 <= INT_MAX /\
  Bubblesort.verify 4096 9
    (Bubblesort.bubblesort 4096 9 (init (fun a => - a))) = 1.
Proof.
  assert (H : 0 <= 9 <= INT_MAX) by (unfold INT_MAX; lia).
  split; [exact H|].
  exact (proj1 (sorting_main_never_fails 4096 9 (init (fun a => - a))) H).
Defined.

Lemma swap_step_store_count arr j s :
  (length (st_log (Bubblesort.swap_step arr j s)) <= length (st_log s) + 2)%nat.
Proof.
  unfold Bubblesort.swap_step.
  destruct (_ >? _); cbn [st_log store]; rewrite ?length_app; cbn [length]; lia.
Qed.

Lemma pass_store_count arr k s :
  0 <= k ->
  Z.of_nat (length (st_log
    (for_lt 0 k (fun j s => Bubblesort.swap_step arr j s) s)))
  <= Z.of_nat (length (st_log s)) + 2 * k.
Proof.
  intros Hk.
  apply (for_lt_inv
    (fun i t => Z.of_nat (length (st_log t))
                <= Z.of_nat (length (st_log s)) + 2 * i)); [lia | lia |].
  intros j t Hj Ht. pose proof (swap_step_store_count arr j t). lia.
Qed.

(** X18: [bubblesort(arr, n)] performs at most [n * (n - 1)] stores: two
    for each of the at most [n * (n - 1) / 2] exchanges. *)
Theorem bubblesort_store_bound (arr : addr) (n : Z) (s : state) :
  0 <= n <= INT_MAX ->
  Z.of_nat (length (st_log (Bubblesort.bubblesort arr n s)))
    <= Z.of_nat (length (st_log s)) + n * (n - 1).
Proof.
  intros Hn. unfold Bubblesort.bubblesort.
  rewrite (sub32_id n 1) by (unfold in_int, INT_MIN, INT_MAX in *; lia).
  destruct (Z.eq_dec n 0) as [->|Hn0]; [rewrite for_lt_empty; lia|].
  pose (Inv := fun (i : Z) (t : state) =>
    0 <= i <= n - 1 /\
    Z.of_nat (length (st_log t))
      <= Z.of_nat (length (st_log s)) + i * (2 * n - i - 1)).
  match goal with |- Z.of_nat (length (st_log ?t)) <= _ =>
    assert (HI : Inv (n - 1) t) end.
  { apply for_lt_inv; [lia | split; lia |].
    intros i t Hi (Hr & Hlen). split; [lia|].
    rewrite (sub32_id n i), (sub32_id (n - i) 1)
      by (unfold in_int, INT_MIN, INT_MAX in *; lia).
    pose proof (pass_store_count arr (n - i - 1) t ltac:(lia)). nia. }
  destruct HI as (_ & HI). nia.
Qed.

Lemma bubblesort_store_bound_witness :
  0 <= 5 <= INT_MAX /\
  Z.of_nat (length (st_log
    (Bubblesort.bubblesort 4096 5 (init (fun a => - a)))))
    <= Z.of_nat (length (st_log (init (fun a => - a)))) + 5 * (5 - 1).
Proof.
  assert (H : 0 <= 5 <= INT_MAX) by (unfold INT_MAX; lia).
  split; [exact H|].
  exact (bubblesort_store_bound 4096 5 (init (fun a => - a)) H).
Defined.

(** ** pattern.c: the counter as a state machine *)

(** X19: the loop body of the pattern generator is a counter modulo 3:
    from any locals with [state] in 0..2 it moves [state] to
    [(state + 1) mod 3] and increments [result] exactly when the new
    state is not 0; so after the first [n] iterations of the run
    ([0 <= n <= 100]) [state] is [n mod 3] and [result] is [n - n / 3]. *)
Theorem pattern_counter_cycles (l : Pattern.locals) (i n : Z) :
  (0 <= Pattern.state_ l <= 2 -> in_int (Pattern.result l + 1) ->
     Pattern.state_ (Pattern.body i l) = (Pattern.state_ l + 1) mod 3 /\
     Pattern.result (Pattern.body i l)
       = Pattern.result l
         + (if Pattern.state_ (Pattern.body i l) =? 0 then 0 else 1)) /\
  (0 <= n <= 100 ->
     Pattern.state_ (for_lt 0 n Pattern.body (Pattern.mkLocals 0 0 [])) = n mod 3 /\
     Pattern.result (for_lt 0 n Pattern.body (Pattern.mkLocals 0 0 []))
       = n - n / 3).
Proof.
  split.
  - intros Hst Hres. unfold Pattern.body.
    cbn [Pattern.state_ Pattern.result].
    rewrite (add32_id (Pattern.state_ l) 1)
      by (unfold in_int, INT_MIN, INT_MAX; lia).
    rewrite (add32_id (Pattern.result l) 1) by exact Hres.
    destruct (Z.eqb_spec (Pattern.state_ l + 1) 3) as [E|E].
    + cbn [Z.eqb negb]. split; [Z.div_mod_to_equations; lia | lia].
    + assert (Hm : (Pattern.state_ l + 1) mod 3 = Pattern.state_ l + 1)
        by (apply Z.mod_small; lia).
      destruct (Z.eqb_spec (Pattern.state_ l + 1) 0); [lia|].
      cbn [negb]. split; [now rewrite Hm | reflexivity].
  - intros Hn.
    destruct (pattern_loop_invariant n ltac:(lia)) as (H1 & H2 & _).
    split; [exact H1 | exact H2].
Qed.

Lemma pattern_counter_cycles_witness :
  0 <= 50 <= 100 /\
  Pattern.result (for_lt 0 50 Pattern.body (Pattern.mkLocals 0 0 []))
    = 50 - 50 / 3.
Proof.
  assert (H : 0 <= 50 <= 100) by lia.
  split; [exact H|].
  exact (proj2 (proj2 (pattern_counter_cycles (Pattern.mkLocals 0 0 []) 0 50) H)).
Defined.
